(** * Training loop with CutMix and SAM: a shallow embedding

    The development follows [train/train with cutmix and sam.py] (the CutMix /
    SAM variant) and [train/train.py] (the baseline loop).

    Conventions.
    - Python floats are idealised as exact rationals ([Q]); every finite float
      is a rational, and the arithmetic the scripts perform on them ([+], [-],
      [*], [/], comparisons) is taken without rounding.  The one place where
      rounding decides an integer, [np.int (H * np.sqrt (1. - lam))] inside
      [rand_bbox], is computed in double precision with the floating-point
      specification of the Standard Library ([SpecFloat], 53 bits of
      precision, round to nearest even).
    - Tensors are nested lists, indexed as the source names the axes:
      [Batch_size, Channel, Width, Height].
    - The framework objects (network, optimizer, random generators, criterion,
      sklearn's metric) are collaborators of the scripts: they are parameters
      of the sections below, and every call on them is recorded in a trace. *)

From Stdlib Require Import ZArith QArith Qround Lia.
From Stdlib Require Import SpecFloat.
From Stdlib Require Import String.
From stdpp Require Import base list.

Local Open Scope Z_scope.

(** ** Numeric helpers *)

(** [np.clip(a, a_min, a_max)], numpy's [minimum(a_max, maximum(a, a_min))]. *)
Definition np_clip (a a_min a_max : Z) : Z := Z.min a_max (Z.max a a_min).

(** *** Double precision

    [np.sqrt], the product with the image size and [np.int] act on doubles
    (IEEE 754 binary64).  They are the operations of [SpecFloat] at precision
    53 and maximal exponent 1024. *)
Definition prec : Z := 53.
Definition emax : Z := 1024.

(** The double nearest to a rational, ties to even: the quotient of numerator
    and denominator, rounded once.  It is how a float subtraction such as
    [1. - lam] rounds its exact result. *)
Definition double_of_Q (x : Q) : spec_float :=
  match Qnum x with
  | Z0 => S754_zero false
  | Zpos p =>
      let '(mz, ez, lz) :=
        SFdiv_core_binary prec emax (Zpos p) 0 (Zpos (Qden x)) 0 in
      binary_round_aux prec emax false mz ez lz
  | Zneg p =>
      let '(mz, ez, lz) :=
        SFdiv_core_binary prec emax (Zpos p) 0 (Zpos (Qden x)) 0 in
      binary_round_aux prec emax true mz ez lz
  end.

(** A Python [int] converted to a double, as [W * cut_rat] does with [W]. *)
Definition double_of_Z (n : Z) : spec_float :=
  binary_normalize prec emax n 0 false.

(** The rational a finite double stands for. *)
Definition Q_of_double (f : spec_float) : Q :=
  match f with
  | S754_finite s m (Zneg p) => cond_Zopp s (Zpos m) # (2 ^ p)
  | S754_finite s m e => inject_Z (cond_Zopp s (Zpos m) * 2 ^ e)
  | _ => 0
  end.

(** [np.int(f)], Python's [int(f)]: truncation towards zero; [ValueError] on
    [nan] and [OverflowError] on an infinity are [None]. *)
Definition np_int (f : spec_float) : option Z :=
  match f with
  | S754_zero _ => Some 0
  | S754_finite _ _ _ =>
      Some (Z.quot (Qnum (Q_of_double f)) (Zpos (Qden (Q_of_double f))))
  | _ => None
  end.

(** A double that is not negative: [nan] has no sign. *)
Definition nonneg_double (f : spec_float) : Prop :=
  match f with
  | S754_nan => True
  | S754_zero s | S754_infinity s | S754_finite s _ _ => s = false
  end.

(** The double [n * np.sqrt(x)], where [x] is the exact value of the float
    expression under the root. *)
Definition scaled_sqrt (n : Z) (x : Q) : spec_float :=
  SFmul prec emax (double_of_Z n) (SFsqrt prec emax (double_of_Q x)).

(** [np.int(n * np.sqrt(x))] for an integer [n >= 0] and a float expression
    of exact value [x]: the truncation of the double [n * np.sqrt(x)].
    [np.sqrt] of a negative number is [nan] and [np.int(nan)] raises
    [ValueError]: that is [None].  For [0 <= x] the product fails to be
    finite only when [n] or the product itself is beyond every double (2^1024
    and above), which no image size is; the exact integer stands in there. *)
Definition np_int_scaled_sqrt (n : Z) (x : Q) : option Z :=
  if Qle_bool 0 x then
    match np_int (scaled_sqrt n x) with
    | Some c => Some c
    | None => Some (Z.sqrt (Qfloor (inject_Z (n * n) * x)))
    end
  else None.

(** Strict comparison of floats. *)
Definition Qlt_bool (x y : Q) : bool := negb (Qle_bool y x).

(** ** Tensors *)

Abbreviation pixel := Q (only parsing).
Abbreviation tensor4 := (list (list (list (list pixel)))) (only parsing).

(** [t.size()]: the four extents, read off the first element of each axis. *)
Definition size4 (t : tensor4) : Z * Z * Z * Z :=
  let s := default [] (head t) in
  let c := default [] (head s) in
  let r := default [] (head c) in
  (Z.of_nat (length t), Z.of_nat (length s), Z.of_nat (length c), Z.of_nat (length r)).

(** Every sample has [C] channels, every channel [W] rows, every row [H] cells. *)
Definition rect_channel (W H : nat) (c : list (list pixel)) : Prop :=
  length c = W /\ Forall (fun r => length r = H) c.

Definition rect_sample (C W H : nat) (s : list (list (list pixel))) : Prop :=
  length s = C /\ Forall (rect_channel W H) s.

Definition rectangular (t : tensor4) (C W H : nat) : Prop :=
  Forall (rect_sample C W H) t.


(** [t[n, c, i, j]]. *)
Definition tget (t : tensor4) (n c i j : nat) : option pixel :=
  s ← t !! n; ch ← s !! c; r ← ch !! i; r !! j.

(** A bounding box [(bbx1, bby1, bbx2, bby2)]. *)
Abbreviation bbox := (Z * Z * Z * Z)%type (only parsing).

Definition in_range (lo hi : Z) (k : nat) : bool :=
  (lo <=? Z.of_nat k) && (Z.of_nat k <? hi).

(** [(i, j)] lies in the box. *)
Definition in_box (b : bbox) (i j : nat) : bool :=
  let '(bbx1, bby1, bbx2, bby2) := b in
  in_range bbx1 bbx2 i && in_range bby1 bby2 j.

(** The number of positions of a [W x H] image that lie in the box. *)
Definition count_in_box (b : bbox) (W H : nat) : nat :=
  length (filter (fun p => in_box b p.1 p.2 = true) (list_prod (seq 0 W) (seq 0 H))).

(** [dst[bby1:bby2] = src[bby1:bby2]] on one row. *)
Definition assign_row (bby1 bby2 : Z) (dst src : list pixel) : list pixel :=
  imap (fun j v => if in_range bby1 bby2 j then default v (src !! j) else v) dst.

(** [dst[bbx1:bbx2, bby1:bby2] = src[bbx1:bbx2, bby1:bby2]] on one channel. *)
Definition assign_channel (b : bbox) (dst src : list (list pixel)) : list (list pixel) :=
  let '(bbx1, bby1, bbx2, bby2) := b in
  imap (fun i row =>
          if in_range bbx1 bbx2 i
          then assign_row bby1 bby2 row (default row (src !! i))
          else row) dst.

Definition assign_sample (b : bbox) (dst src : list (list (list pixel))) :=
  imap (fun c ch => assign_channel b ch (default ch (src !! c))) dst.

(** [t[idx]] with an index tensor: a fresh tensor gathering the samples at
    [idx]; an index out of range raises [IndexError]. *)
Definition index_select {A} (t : list A) (idx : list nat) : option (list A) :=
  mapM (fun k => t !! k) idx.

(** [t[:, :, bbx1:bbx2, bby1:bby2] = t[idx, :, bbx1:bbx2, bby1:bby2]].  The
    right-hand side is a copy made by advanced indexing, so the pixels read
    are those before the assignment; the region shapes differ, and the
    assignment raises, when [idx] has not one entry per sample. *)
Definition cutmix_assign (t : tensor4) (idx : list nat) (b : bbox) : option tensor4 :=
  src ← index_select t idx;
  if decide (length src = length t)
  then Some (zip_with (assign_sample b) t src)
  else None.

(** ** Command-line arguments and the optimizer object *)

Record args := {
  beta : Q;
  cutmix_prob : Q;
  optimizer : String.string;
  base_optimizer : String.string;
}.

(** The optimizer built at lines 123-139: [opt.SAM] wrapped around a
    [torch.optim] class when [args.optimizer == "SAM"], a plain [torch.optim]
    object otherwise. *)
Inductive optimizer_obj :=
| SAM (base : String.string)
| TorchOptim (name : String.string).

Definition make_optimizer (a : args) : optimizer_obj :=
  if String.eqb (optimizer a) "SAM"%string then SAM (base_optimizer a)
  else TorchOptim (optimizer a).

(** [isinstance(optimizer, opt.SAM)]. *)
Definition isinstance_SAM (o : optimizer_obj) : bool :=
  match o with SAM _ => true | TorchOptim _ => false end.

(** ** Calls on the framework *)

Abbreviation logits := (list (list Q)) (only parsing).
Abbreviation labels_t := (list Z) (only parsing).

Inductive event :=
| ModelTrain
| ModelEval
| ZeroGrad
| NpRand (r : Q)
| NpBeta (a b lam : Q)
| Randperm (n : nat) (p : list nat)
| NpRandint (high v : Z)
| Forward (x : tensor4)
| Backward (loss : Q)
| FirstStep (zero_grad : bool)
| SecondStep (zero_grad : bool)
| OptStep
| SchedulerStep.

(** Kinds of calls. *)
Definition is_draw (ev : event) : bool :=
  match ev with
  | NpRand _ | NpBeta _ _ _ | Randperm _ _ | NpRandint _ _ => true
  | _ => false
  end.

Definition is_uniform_draw (ev : event) : bool :=
  match ev with NpRand _ => true | _ => false end.

Definition is_forward (ev : event) : bool :=
  match ev with Forward _ => true | _ => false end.

Definition is_sam_step (ev : event) : bool :=
  match ev with FirstStep _ | SecondStep _ => true | _ => false end.

(** The collaborators of the scripts: the network with its optimizer, the
    criterion, the random generators of numpy and torch, sklearn's
    [f1_score(..., average='macro')] and [util.grid_image]. *)
Class Framework := {
  (** network parameters, gradients and optimizer state; every framework
      call may change them, in a way the scripts do not see *)
  net : Type;
  torch_step : event -> net -> net;
  (** [model(inputs)] at the current parameters *)
  model_out : net -> tensor4 -> logits;
  (** [criterion(outs, labels)] *)
  criterion : logits -> labels_t -> Q;
  rng : Type;
  np_rand : rng -> Q * rng;
  np_beta : Q -> Q -> rng -> Q * rng;
  torch_randperm : nat -> rng -> list nat * rng;
  np_randint : Z -> rng -> Z * rng;
  f1_score_macro : labels_t -> labels_t -> Q;
  figure : Type;
  grid_image : tensor4 -> labels_t -> labels_t -> figure;
}.

(** What the libraries document about their generators. *)
Class FrameworkLaws (F : Framework) : Prop := {
  np_rand_range : forall g, (0 <= (np_rand g).1 /\ (np_rand g).1 < 1)%Q;
  np_beta_range : forall a b g, (0 <= (np_beta a b g).1 /\ (np_beta a b g).1 <= 1)%Q;
  torch_randperm_perm : forall n g, Permutation (torch_randperm n g).1 (seq 0 n);
  np_randint_range : forall high g, 0 < high -> 0 <= (np_randint high g).1 < high;
}.

(** ** Checkpoint policy (lines 148-149 and 238-245; [train.py], lines 102-104
    and 179-194) *)

(** A float that may be [np.inf]. *)
Inductive float_inf :=
| Fin (q : Q)
| Inf.

(** Python's [min(best, v)]: [v] when [v < best], else [best]. *)
Definition py_min (best : float_inf) (v : Q) : float_inf :=
  match best with
  | Inf => Fin v
  | Fin b => if Qlt_bool v b then Fin v else Fin b
  end.

(** [x <= y] on floats that may be infinite. *)
Definition float_inf_le (x y : float_inf) : Prop :=
  match x, y with
  | _, Inf => True
  | Inf, Fin _ => False
  | Fin a, Fin b => (a <= b)%Q
  end.

(** What an epoch writes into the run directory. *)
Inductive artifact :=
| BestPth
| ConfusionMatrix
| ClassificationResult
| LastPth.

#[global] Instance artifact_eq_dec : EqDecision artifact.
Proof. solve_decision. Defined.

Record best_state := BestState {
  best_val_loss : float_inf;
  best_f1_score : Q;
}.

(** Lines 148-149. *)
Definition best_init : best_state := BestState Inf 0%Q.

(** Lines 238-245: the new running bests and the files written. *)
Definition checkpoint (st : best_state) (epoch_f1 val_loss : Q)
    : best_state * list artifact :=
  let best_val_loss := py_min (best_val_loss st) val_loss in
  if Qlt_bool (best_f1_score st) epoch_f1
  then (BestState best_val_loss epoch_f1, [BestPth; ConfusionMatrix; LastPth])
  else (BestState best_val_loss (best_f1_score st), [LastPth]).

(** The baseline also keeps the accuracy of the best epoch and writes the
    classification report ([train.py], lines 102-104 and 179-194). *)
Record baseline_best_state := BaselineBest {
  best_val_acc : Q;
  b_best_val_loss : float_inf;
  best_val_f1_score : Q;
}.

Definition baseline_best_init : baseline_best_state := BaselineBest 0%Q Inf 0%Q.

Definition baseline_checkpoint (st : baseline_best_state)
    (val_f1_score val_loss val_acc : Q) : baseline_best_state * list artifact :=
  let best_val_loss := py_min (b_best_val_loss st) val_loss in
  if Qlt_bool (best_val_f1_score st) val_f1_score
  then (BaselineBest val_acc best_val_loss val_f1_score,
        [BestPth; ConfusionMatrix; ClassificationResult; LastPth])
  else (BaselineBest (best_val_acc st) best_val_loss (best_val_f1_score st),
        [LastPth]).

(** The policy along a sequence of epochs, each given by its
    [(F1, validation loss)]: the state after, and the files of, every epoch. *)
Fixpoint checkpoint_run (st : best_state) (epochs : list (Q * Q))
    : list (best_state * list artifact) :=
  match epochs with
  | [] => []
  | (f1, vl) :: rest =>
      let r := checkpoint st f1 vl in r :: checkpoint_run r.1 rest
  end.

Fixpoint baseline_checkpoint_run (st : baseline_best_state) (epochs : list (Q * Q * Q))
    : list (baseline_best_state * list artifact) :=
  match epochs with
  | [] => []
  | (f1, vl, va) :: rest =>
      let r := baseline_checkpoint st f1 vl va in
      r :: baseline_checkpoint_run r.1 rest
  end.

Section Training.
Context {F : Framework}.

Record world := World {
  rng_state : rng;
  net_state : net;
  inputs : tensor4;       (* the batch tensor the closure captures *)
  trace : list event;     (* framework calls so far, oldest first *)
}.

(** Computations that read and write the world and may raise. *)
Definition M (A : Type) : Type := world -> option (A * world).

#[global] Instance M_ret : MRet M := fun A a w => Some (a, w).
#[global] Instance M_bind : MBind M := fun A B f m w =>
  match m w with
  | Some (a, w') => f a w'
  | None => None
  end.

Definition raise {A} : M A := fun _ => None.

Definition lift {A} (o : option A) : M A :=
  match o with Some a => mret a | None => raise end.

Definition get_inputs : M tensor4 := fun w => Some (inputs w, w).

Definition set_inputs (t : tensor4) : M unit := fun w =>
  Some (tt, World (rng_state w) (net_state w) t (trace w)).

(** A call that returns nothing: logged, and applied to the network state. *)
Definition call (ev : event) : M unit := fun w =>
  Some (tt, World (rng_state w) (torch_step ev (net_state w)) (inputs w)
                  (trace w ++ [ev])).

(** The world a call that returns nothing leaves. *)
Definition after_call (ev : event) (w : world) : world :=
  World (rng_state w) (torch_step ev (net_state w)) (inputs w) (trace w ++ [ev]).

(** A draw from a generator: logged, the generator advanced. *)
Definition draw {A} (sample : rng -> A * rng) (log : A -> event) : M A := fun w =>
  let '(v, g) := sample (rng_state w) in
  Some (v, World g (net_state w) (inputs w) (trace w ++ [log v])).

Definition np_random_rand : M Q := draw np_rand NpRand.

Definition np_random_beta (a b : Q) : M Q := draw (np_beta a b) (NpBeta a b).

Definition torch_randperm_call (n : nat) : M (list nat) :=
  draw (torch_randperm n) (Randperm n).

(** [np.random.randint(high)] raises [ValueError] unless [high > 0]. *)
Definition np_random_randint (high : Z) : M Z :=
  if 0 <? high then draw (np_randint high) (NpRandint high) else raise.

(** [model(inputs)]: the forward pass on the captured batch tensor. *)
Definition model_call : M logits := fun w =>
  let outs := model_out (net_state w) (inputs w) in
  (call (Forward (inputs w));; mret outs) w.

(** ** [rand_bbox] (lines 28-45) *)

Definition rand_bbox (size : Z * Z * Z * Z) (lam : Q) : M bbox :=
  let '(_, _, W, H) := size in
  cut_w ← lift (np_int_scaled_sqrt W (1 - lam));
  cut_h ← lift (np_int_scaled_sqrt H (1 - lam));
  cx ← np_random_randint W;
  cy ← np_random_randint H;
  let bbx1 := 0 in
  let bby1 := np_clip (cy - cut_h / 2) 0 H in
  let bbx2 := W in
  let bby2 := np_clip (cy + cut_h / 2) 0 H in
  mret (bbx1, bby1, bbx2, bby2).

(** The box [rand_bbox] returns for a cut height and a centre row. *)
Definition box_of (W H cut_h cy : Z) : bbox :=
  (0, np_clip (cy - cut_h / 2) 0 H, W, np_clip (cy + cut_h / 2) 0 H).

(** The four draws of one mixing closure call, in the order the closure makes
    them, from the generator state [g]; [m_rng] is the state they leave. *)
Record mix_draws := MixDraws {
  m_lam : Q;
  m_perm : list nat;
  m_cx : Z;
  m_cy : Z;
  m_rng : rng;
}.

Definition sample_mix (a : args) (N : nat) (W H : Z) (g : rng) : mix_draws :=
  let lam := np_beta (beta a) (beta a) g in
  let perm := torch_randperm N lam.2 in
  let cx := np_randint W perm.2 in
  let cy := np_randint H cx.2 in
  MixDraws lam.1 perm.1 cx.1 cy.1 cy.2.

(** The framework calls of one mixing closure call. *)
Definition mix_trace (a : args) (N : nat) (W H : Z) (d : mix_draws) (x' : tensor4)
    : list event :=
  [NpBeta (beta a) (beta a) (m_lam d); Randperm N (m_perm d);
   NpRandint W (m_cx d); NpRandint H (m_cy d); Forward x'].

(** A batch as the loader yields it: [N >= 1] samples of one shape
    [C x W x H], and one label per sample. *)
Definition batch_ok (x : tensor4) (labels : labels_t) (C W H : nat) : Prop :=
  x <> [] /\ (0 < C)%nat /\ (0 < W)%nat /\ (0 < H)%nat /\
  rectangular x C W H /\ length labels = length x.

(** A loader all of whose batches are well formed. *)
Definition loader_ok (train_loader : list (tensor4 * labels_t)) : Prop :=
  Forall (fun batch => exists C W H, batch_ok batch.1 batch.2 C W H) train_loader.

(** The mixing ratio recomputed at line 173 from the box and
    [inputs.size()[-1] * inputs.size()[-2]]. *)
Definition recomputed_lam (b : bbox) (size : Z * Z * Z * Z) : Q :=
  let '(bbx1, bby1, bbx2, bby2) := b in
  let '(_, _, W, H) := size in
  (1 - (inject_Z ((bbx2 - bbx1) * (bby2 - bby1)) / inject_Z (H * W)))%Q.

(** The blend of line 176. *)
Definition blended_loss (outs : logits) (target_a target_b : labels_t) (lam : Q) : Q :=
  (criterion outs target_a * lam + criterion outs target_b * (1 - lam))%Q.

(** ** The loss closure (lines 165-180) *)

Definition cutmix_triggers (a : args) (r : Q) : bool :=
  Qlt_bool 0 (beta a) && Qlt_bool r (cutmix_prob a).

Definition closure (a : args) (labels : labels_t) (r : Q) : M Q :=
  if cutmix_triggers a r then
    lam ← np_random_beta (beta a) (beta a);
    x ← get_inputs;
    rand_index ← torch_randperm_call (length x);
    let target_a := labels in
    target_b ← lift (index_select labels rand_index);
    b ← rand_bbox (size4 x) lam;
    x' ← lift (cutmix_assign x rand_index b);
    set_inputs x';;
    let lam := recomputed_lam b (size4 x') in
    outs ← model_call;
    mret (blended_loss outs target_a target_b lam)
  else
    outs ← model_call;
    mret (criterion outs labels).

(** ** One iteration of the batch loop (lines 158-192) *)

Definition train_batch (a : args) (opt : optimizer_obj)
    (batch : tensor4 * labels_t) : M Q :=
  let '(x, labels) := batch in
  set_inputs x;;
  call ZeroGrad;;
  r ← np_random_rand;
  loss ← closure a labels r;
  call (Backward loss);;
  if isinstance_SAM opt then
    call (FirstStep true);;
    loss ← closure a labels r;
    call (Backward loss);;
    call (SecondStep true);;
    mret loss
  else
    call OptStep;;
    mret loss.

(** The batch loop of one epoch (lines 153-194): the mean of the losses, a
    division of Python numbers that raises on an empty loader. *)
Fixpoint train_batches (a : args) (opt : optimizer_obj)
    (train_loader : list (tensor4 * labels_t)) (train_loss : Q) : M Q :=
  match train_loader with
  | [] => mret train_loss
  | batch :: rest =>
      loss ← train_batch a opt batch;
      train_batches a opt rest (train_loss + loss)%Q
  end.

Definition train_epoch (a : args) (opt : optimizer_obj)
    (train_loader : list (tensor4 * labels_t)) : M Q :=
  call ModelTrain;;
  train_loss ← train_batches a opt train_loader 0%Q;
  if decide (train_loader = []) then raise
  else mret (train_loss / inject_Z (Z.of_nat (length train_loader)))%Q.

(** The loss of the baseline script ([train.py], lines 119-122): the forward
    pass on the batch as loaded, then the criterion. *)
Definition baseline_loss (labels : labels_t) : M Q :=
  outs ← model_call;
  mret (criterion outs labels).

(** The same iteration in the baseline script ([train.py], lines 112-128). *)
Definition baseline_train_batch (batch : tensor4 * labels_t) : M Q :=
  let '(x, labels) := batch in
  set_inputs x;;
  call ZeroGrad;;
  loss ← baseline_loss labels;
  call (Backward loss);;
  call OptStep;;
  mret loss.

(** ** Validation (lines 199-236; [train.py], lines 146-178) *)

(** [torch.argmax(row)]: the index of the first maximal value. *)
Fixpoint argmax_from (best : Q) (best_i i : Z) (row : list Q) : Z :=
  match row with
  | [] => best_i
  | v :: rest =>
      if Qlt_bool best v then argmax_from v i (i + 1) rest
      else argmax_from best best_i (i + 1) rest
  end.

Definition argmax_row (row : list Q) : Z :=
  match row with
  | [] => 0
  | v :: rest => argmax_from v 0 1 rest
  end.

(** [torch.argmax(outs, dim=-1)]. *)
Definition argmax (outs : logits) : labels_t := map argmax_row outs.

(** [(labels == preds).sum().item()]. *)
Definition count_matches (labels preds : labels_t) : Z :=
  Z.of_nat (length (filter (fun p => p.1 = p.2) (zip labels preds))).

(** [np.sum] of a list of floats, of a list of counts. *)
Definition np_sum (l : list Q) : Q := foldr Qplus 0%Q l.
Definition np_sum_int (l : list Z) : Z := foldr Z.add 0 l.

(** The variables the validation loop updates. *)
Record val_acc_t := ValAcc {
  val_loss_items : list Q;
  val_acc_items : list Z;
  val_figure : option figure;
  epoch_f1 : Q;
  y_pred : labels_t;
  y_true : labels_t;
}.

Definition val_init : val_acc_t := ValAcc [] [] None 0%Q [] [].

(** One iteration of the validation loop (lines 209-231). *)
Definition val_batch (acc : val_acc_t) (batch : tensor4 * labels_t) : M val_acc_t :=
  let '(x, labels) := batch in
  set_inputs x;;
  outs ← model_call;
  let preds := argmax outs in
  let epoch_f1 := (epoch_f1 acc + f1_score_macro labels preds)%Q in
  let loss_item := criterion outs labels in
  let acc_item := count_matches labels preds in
  let fig := match val_figure acc with
             | None => Some (grid_image x labels preds)
             | Some f => Some f
             end in
  mret (ValAcc (val_loss_items acc ++ [loss_item])
               (val_acc_items acc ++ [acc_item])
               fig epoch_f1
               (y_pred acc ++ preds) (y_true acc ++ labels)).

Fixpoint val_loop (acc : val_acc_t) (val_loader : list (tensor4 * labels_t)) : M val_acc_t :=
  match val_loader with
  | [] => mret acc
  | batch :: rest => acc' ← val_batch acc batch; val_loop acc' rest
  end.

(** What an epoch's validation hands on. *)
Record val_result := ValResult {
  val_loss : Q;
  val_acc : Q;
  val_f1 : Q;
  res_figure : option figure;
  res_pred : labels_t;
  res_true : labels_t;
}.

(** Lines 199-236.  With no batch [epoch_f1] is still the integer 0 at line
    236 and the division raises. *)
Definition validate (val_loader : list (tensor4 * labels_t)) (val_set_len : Z)
    : M val_result :=
  call ModelEval;;
  acc ← val_loop val_init val_loader;
  let n := inject_Z (Z.of_nat (length val_loader)) in
  let val_loss := (np_sum (val_loss_items acc) / n)%Q in
  let val_acc := (inject_Z (np_sum_int (val_acc_items acc)) / inject_Z val_set_len)%Q in
  if decide (val_loader = []) then raise
  else mret (ValResult val_loss val_acc (epoch_f1 acc / n)%Q
                       (val_figure acc) (y_pred acc) (y_true acc)).

(** The baseline ([train.py], lines 146-178) keeps no per-batch score: its F1
    is sklearn's macro F1 of the whole epoch's answers and predictions.  With
    no batch its means are not numbers; no result is modelled there. *)
Definition baseline_val_batch (acc : val_acc_t) (batch : tensor4 * labels_t)
    : M val_acc_t :=
  let '(x, labels) := batch in
  set_inputs x;;
  outs ← model_call;
  let preds := argmax outs in
  let loss_item := criterion outs labels in
  let acc_item := count_matches labels preds in
  let fig := match val_figure acc with
             | None => Some (grid_image x labels preds)
             | Some f => Some f
             end in
  mret (ValAcc (val_loss_items acc ++ [loss_item])
               (val_acc_items acc ++ [acc_item])
               fig (epoch_f1 acc)
               (y_pred acc ++ preds) (y_true acc ++ labels)).

Fixpoint baseline_val_loop (acc : val_acc_t) (val_loader : list (tensor4 * labels_t))
    : M val_acc_t :=
  match val_loader with
  | [] => mret acc
  | batch :: rest => acc' ← baseline_val_batch acc batch; baseline_val_loop acc' rest
  end.

Definition baseline_validate (val_loader : list (tensor4 * labels_t)) (val_set_len : Z)
    : M val_result :=
  call ModelEval;;
  acc ← baseline_val_loop val_init val_loader;
  let n := inject_Z (Z.of_nat (length val_loader)) in
  let val_loss := (np_sum (val_loss_items acc) / n)%Q in
  let val_acc := (inject_Z (np_sum_int (val_acc_items acc)) / inject_Z val_set_len)%Q in
  let val_f1_score := f1_score_macro (y_true acc) (y_pred acc) in
  if decide (val_loader = []) then raise
  else mret (ValResult val_loss val_acc val_f1_score
                       (val_figure acc) (y_pred acc) (y_true acc)).

(** The forward passes of a validation loop on their own: the logits of
    every batch, in order. *)
Fixpoint val_forwards (val_loader : list (tensor4 * labels_t)) : M (list logits) :=
  match val_loader with
  | [] => mret []
  | (x, _) :: rest =>
      set_inputs x;;
      outs ← model_call;
      more ← val_forwards rest;
      mret (outs :: more)
  end.

(** The figure of the first batch. *)
Definition first_figure (val_loader : list (tensor4 * labels_t)) (outs : list logits)
    : option figure :=
  match val_loader, outs with
  | (x, labels) :: _, o :: _ => Some (grid_image x labels (argmax o))
  | _, _ => None
  end.

(** Per batch: the loss, the number of correct predictions, the macro F1. *)
Definition batch_losses (val_loader : list (tensor4 * labels_t)) (outs : list logits)
    : list Q :=
  zip_with (fun o b => criterion o b.2) outs val_loader.

Definition batch_matches (val_loader : list (tensor4 * labels_t)) (outs : list logits)
    : list Z :=
  zip_with (fun o b => count_matches b.2 (argmax o)) outs val_loader.

Definition batch_f1s (val_loader : list (tensor4 * labels_t)) (outs : list logits)
    : list Q :=
  zip_with (fun o b => f1_score_macro b.2 (argmax o)) outs val_loader.

(** ** The epoch loop (lines 151-258; [train.py], lines 106-203) *)

Definition epoch (a : args) (opt : optimizer_obj)
    (train_loader val_loader : list (tensor4 * labels_t)) (val_set_len : Z)
    (st : best_state) : M (best_state * list artifact) :=
  train_loss ← train_epoch a opt train_loader;
  call SchedulerStep;;
  v ← validate val_loader val_set_len;
  mret (checkpoint st (val_f1 v) (val_loss v)).

(** [loaders]: what the two data loaders yield at each epoch. *)
Fixpoint train_epochs (a : args) (opt : optimizer_obj)
    (loaders : list (list (tensor4 * labels_t) * list (tensor4 * labels_t)))
    (val_set_len : Z) (st : best_state) : M (list (best_state * list artifact)) :=
  match loaders with
  | [] => mret []
  | (train_loader, val_loader) :: rest =>
      r ← epoch a opt train_loader val_loader val_set_len st;
      h ← train_epochs a opt rest val_set_len r.1;
      mret (r :: h)
  end.

Definition train (a : args)
    (loaders : list (list (tensor4 * labels_t) * list (tensor4 * labels_t)))
    (val_set_len : Z) : M (list (best_state * list artifact)) :=
  train_epochs a (make_optimizer a) loaders val_set_len best_init.

Fixpoint baseline_train_batches (train_loader : list (tensor4 * labels_t)) : M unit :=
  match train_loader with
  | [] => mret tt
  | batch :: rest => baseline_train_batch batch;; baseline_train_batches rest
  end.

(** The summary line the baseline prints at the end of an epoch ([train.py],
    lines 195-198).  It formats the running best F1 with [:4.2]; a precision
    is refused for an [int] ([ValueError]), and the running best F1 is the
    [int] 0 of line 104 until line 187 assigns a float above it: from
    [baseline_best_init], exactly as long as it is 0. *)
Definition print_val_summary (st : baseline_best_state) : M unit :=
  if Qeq_bool (best_val_f1_score st) 0 then raise else mret tt.

Definition baseline_epoch (train_loader val_loader : list (tensor4 * labels_t))
    (val_set_len : Z) (st : baseline_best_state)
    : M (baseline_best_state * list artifact) :=
  call ModelTrain;;
  baseline_train_batches train_loader;;
  call SchedulerStep;;
  v ← baseline_validate val_loader val_set_len;
  let r := baseline_checkpoint st (val_f1 v) (val_loss v) (val_acc v) in
  print_val_summary r.1;;
  mret r.

(** The losses the batches of one epoch return, in order (the values line
    192 adds up). *)
Fixpoint train_steps (a : args) (opt : optimizer_obj)
    (train_loader : list (tensor4 * labels_t)) : M (list Q) :=
  match train_loader with
  | [] => mret []
  | batch :: rest =>
      loss ← train_batch a opt batch;
      more ← train_steps a opt rest;
      mret (loss :: more)
  end.

(** ** The baseline's batch loop with its running log ([train.py], lines
    109-141) *)

(** A record of the running log: [Train/loss], [Train/accuracy] and the step
    they are logged at. *)
Record train_log := TrainLog {
  log_loss : Q;
  log_acc : Q;
  log_step : Z;
}.

(** Lines 112-128: one batch, up to the optimizer step; the loss and the
    number of correct predictions. *)
Definition baseline_train_step (batch : tensor4 * labels_t) : M (Q * Z) :=
  let '(x, labels) := batch in
  set_inputs x;;
  call ZeroGrad;;
  outs ← model_call;
  let preds := argmax outs in
  let loss := criterion outs labels in
  call (Backward loss);;
  call OptStep;;
  mret (loss, count_matches preds labels).

(** Lines 129-141: what batch [idx] logs.  [%] and [/] by zero raise
    [ZeroDivisionError]. *)
Definition log_tick (log_interval batch_size epoch len idx : Z)
    (loss_value : Q) (matches : Z) : option (option train_log) :=
  if decide (log_interval = 0) then None
  else if decide ((idx + 1) mod log_interval = 0) then
    if decide (batch_size = 0) then None
    else Some (Some (TrainLog
                 (loss_value / inject_Z log_interval)
                 (inject_Z matches / inject_Z batch_size / inject_Z log_interval)
                 (epoch * len + idx)))
  else Some None.

(** Lines 109-141 from batch [idx] on: the records logged, and the two
    running sums as the loop leaves them. *)
Fixpoint baseline_logged_loop (log_interval batch_size epoch len idx : Z)
    (train_loader : list (tensor4 * labels_t)) (loss_value : Q) (matches : Z)
    : M (list train_log * (Q * Z)) :=
  match train_loader with
  | [] => mret ([], (loss_value, matches))
  | batch :: rest =>
      r ← baseline_train_step batch;
      let loss_value := (loss_value + r.1)%Q in
      let matches := matches + r.2 in
      tick ← lift (log_tick log_interval batch_size epoch len idx loss_value matches);
      match tick with
      | Some record =>
          more ← baseline_logged_loop log_interval batch_size epoch len (idx + 1)
                   rest 0%Q 0;
          mret (record :: more.1, more.2)
      | None =>
          baseline_logged_loop log_interval batch_size epoch len (idx + 1)
            rest loss_value matches
      end
  end.

Definition baseline_train_loop (log_interval batch_size epoch : Z)
    (train_loader : list (tensor4 * labels_t)) : M (list train_log * (Q * Z)) :=
  call ModelTrain;;
  baseline_logged_loop log_interval batch_size epoch
    (Z.of_nat (length train_loader)) 0 train_loader 0%Q 0.

(** The batches alone: loss and correct predictions of each. *)
Fixpoint baseline_train_steps (train_loader : list (tensor4 * labels_t))
    : M (list (Q * Z)) :=
  match train_loader with
  | [] => mret []
  | batch :: rest =>
      r ← baseline_train_step batch;
      more ← baseline_train_steps rest;
      mret (r :: more)
  end.

End Training.

(** ** A concrete framework, to run the scripts on

    Generators that read their draws from a tape, a network that counts its
    parameter updates, and sklearn's macro F1. *)

Module Tape.

(** The fractional part: a float in [[0, 1)]. *)
Definition frac (q : Q) : Q := (q - inject_Z (Qfloor q))%Q.

(** [q] cut to [[0, 1]]. *)
Definition unit_clamp (q : Q) : Q :=
  if Qle_bool q 0 then 0%Q else if Qle_bool 1 q then 1%Q else q.

Definition pop (g : list Q) : Q * list Q :=
  match g with
  | [] => (0%Q, [])
  | q :: g' => (q, g')
  end.

Definition rand (g : list Q) : Q * list Q := (frac (pop g).1, (pop g).2).

Definition beta (a b : Q) (g : list Q) : Q * list Q :=
  (unit_clamp (pop g).1, (pop g).2).

(** The identity rotated by the draw. *)
Definition randperm (n : nat) (g : list Q) : list nat * list Q :=
  (rotate (Z.to_nat (Qfloor (pop g).1)) (seq 0 n), (pop g).2).

Definition randint (high : Z) (g : list Q) : Z * list Q :=
  (Qfloor (pop g).1 mod high, (pop g).2).

(** Parameter updates so far. *)
Definition step (ev : event) (n : nat) : nat :=
  match ev with
  | OptStep | SecondStep _ => S n
  | _ => n
  end.

Definition sum_pixels (s : list (list (list pixel))) : Q :=
  foldr Qplus 0%Q (concat (concat s)).

(** Two classes: the logits are the sum of the sample's pixels and the
    number of updates. *)
Definition model (n : nat) (x : tensor4) : logits :=
  map (fun s => [sum_pixels s; inject_Z (Z.of_nat n)]) x.

(** The sum, over the samples, of the logit of the sample's label. *)
Definition crit (outs : logits) (labels : labels_t) : Q :=
  foldr Qplus 0%Q
    (zip_with (fun row l => default 0%Q (row !! Z.to_nat l)) outs labels).

End Tape.

(** [sklearn.metrics.f1_score(y_true, y_pred, average='macro')]: the mean,
    over the labels that occur, of [2 tp / (2 tp + fp + fn)]. *)
Definition count_where (P : Z * Z -> bool) (y_true y_pred : labels_t) : Z :=
  Z.of_nat (length (filter (fun p => P p = true) (zip y_true y_pred))).

Definition class_f1 (y_true y_pred : labels_t) (c : Z) : Q :=
  let tp := count_where (fun p => (p.1 =? c) && (p.2 =? c)) y_true y_pred in
  let fp := count_where (fun p => negb (p.1 =? c) && (p.2 =? c)) y_true y_pred in
  let fn := count_where (fun p => (p.1 =? c) && negb (p.2 =? c)) y_true y_pred in
  (inject_Z (2 * tp) / inject_Z (2 * tp + fp + fn))%Q.

Definition sklearn_f1_macro (y_true y_pred : labels_t) : Q :=
  let classes := remove_dups (y_true ++ y_pred) in
  (foldr Qplus 0 (map (class_f1 y_true y_pred) classes)
   / inject_Z (Z.of_nat (length classes)))%Q.

#[local] Instance tape_framework : Framework := {|
  net := nat;
  torch_step := Tape.step;
  model_out := Tape.model;
  criterion := Tape.crit;
  rng := list Q;
  np_rand := Tape.rand;
  np_beta := Tape.beta;
  torch_randperm := Tape.randperm;
  np_randint := Tape.randint;
  f1_score_macro := sklearn_f1_macro;
  figure := tensor4 * labels_t * labels_t;
  grid_image := fun x l p => (x, l, p);
|}.

(** The parser's defaults (lines 274, 289, 290 and 293). *)
Definition default_args : args := Build_args 0 0 "SGD" "None".

(** A two-sample batch of one channel, two rows and four columns, and the
    settings it is run with. *)
Definition ex_args : args := Build_args 1 (1 # 2) "SAM" "SGD".
Definition plain_args : args := Build_args 0 (1 # 2) "SGD" "None".
Definition ex_x : list (list (list (list Q))) :=
  [ [ [ [1; 2; 3; 4]; [5; 6; 7; 8] ] ];
    [ [ [10; 20; 30; 40]; [50; 60; 70; 80] ] ] ]%Q.
Definition ex_labels : list Z := [0; 1].

(** The world before a batch, with the draws to come on the tape. *)
Definition ex_w (g : list Q) : world := World g 0%nat [] [].

(** The world inside the loop, the batch loaded. *)
Definition ex_loaded (g : list Q) : world := World g 0%nat ex_x [].

(** [ex_x] with columns 2-3 of its two samples exchanged. *)
Definition ex_x_mixed : list (list (list (list Q))) :=
  [ [ [ [1; 2; 30; 40]; [5; 6; 70; 80] ] ];
    [ [ [10; 20; 3; 4]; [50; 60; 7; 8] ] ] ]%Q.

(** What the validation pass over [ex_val_loader] returns and leaves. *)
Definition ex_val_result : val_result :=
  @ValResult tape_framework (2 # 2) (3 # 4) (32 # 48)
    (Some ([ [ [ [1] ] ]; [ [ [1] ] ] ]%Q, [0; 0], [0; 0]))
    [0; 0; 0; 1] [0; 0; 1; 1].

Definition ex_val_end : world :=
  @World tape_framework [] 0%nat [ [ [ [1] ] ]; [ [ [-1] ] ] ]%Q
    [ModelEval; Forward [ [ [ [1] ] ]; [ [ [1] ] ] ]%Q;
     Forward [ [ [ [1] ] ]; [ [ [-1] ] ] ]%Q].

(** The world a [rand_bbox] call on the tape [[1; 3]] leaves. *)
Definition ex_bbox_end : world :=
  @World tape_framework [] 0%nat [] [NpRandint 2 1; NpRandint 4 3].

(** The draws of one SAM step: [r], then [lam], the rotation and the box
    centre of each of the two closure calls. *)
Definition ex_tape : list Q := [1 # 4; 0; 1; 1; 2; 3 # 4; 1; 1; 3]%Q.

(** Two validation batches of two one-pixel samples. *)
Definition ex_val_loader : list (list (list (list (list Q))) * list Z) :=
  [ ([ [ [ [1] ] ]; [ [ [1] ] ] ]%Q, [0; 0]);
    ([ [ [ [1] ] ]; [ [ [-1] ] ] ]%Q, [1; 1]) ].

(** The double nearest to 0.64. *)
Definition ex_lam_064 : Q := 5764607523034235 # 9007199254740992.

(** [2^-60], a double. *)
Definition ex_lam_tiny : Q := 1 # 1152921504606846976.

(** A validation loader whose one sample is misclassified. *)
Definition ex_zero_loader : list (list (list (list (list Q))) * list Z) :=
  [ ([ [ [ [1] ] ] ]%Q, [1]) ].

(** What the baseline's validation pass returns on [ex_zero_loader]. *)
Definition ex_zero_val : val_result :=
  @ValResult tape_framework 0 0 (0 # 2) (Some ([ [ [ [1] ] ] ]%Q, [1], [0])) [0] [1].

Definition ex_zero_end : world :=
  @World tape_framework [] 0%nat [ [ [ [1] ] ] ]%Q
    [ModelTrain; SchedulerStep; ModelEval; Forward [ [ [ [1] ] ] ]%Q].

(** * Properties *)

(** ** Numbers *)

Lemma Qle_bool_true (x y : Q) : Qle_bool x y = true <-> (x <= y)%Q.
Proof. apply Qle_bool_iff. Qed.

Lemma Qle_bool_false (x y : Q) : Qle_bool x y = false <-> (y < x)%Q.
Proof.
  split; intros H.
  - apply Qnot_le_lt. intros Hle. apply Qle_bool_iff in Hle. congruence.
  - destruct (Qle_bool x y) eqn:E; [|done].
    apply Qle_bool_iff in E. exfalso. exact (Qlt_not_le _ _ H E).
Qed.

Lemma Qlt_bool_true (x y : Q) : Qlt_bool x y = true <-> (x < y)%Q.
Proof.
  unfold Qlt_bool. rewrite negb_true_iff. apply Qle_bool_false.
Qed.

Lemma Qlt_bool_false (x y : Q) : Qlt_bool x y = false <-> (y <= x)%Q.
Proof.
  unfold Qlt_bool. rewrite negb_false_iff. apply Qle_bool_true.
Qed.

(** *** Doubles *)

Lemma binary_round_aux_nonneg (mx ex : Z) (lx : location) :
  nonneg_double (binary_round_aux prec emax false mx ex lx).
Proof.
  unfold binary_round_aux.
  destruct (shr_fexp prec emax mx ex lx) as [mrs' e'].
  destruct (shr_fexp prec emax _ e' loc_Exact) as [mrs'' e''].
  destruct (shr_m mrs''); simpl; try done.
  destruct (e'' <=? emax - prec); done.
Qed.

Lemma double_of_Q_nonneg (x : Q) : (0 <= x)%Q -> nonneg_double (double_of_Q x).
Proof.
  intros Hx. unfold double_of_Q.
  destruct (Qnum x) as [|p|p] eqn:E; [done| |].
  - destruct (SFdiv_core_binary _ _ _ _ _ _) as [[mz ez] lz].
    apply binary_round_aux_nonneg.
  - exfalso. unfold Qle in Hx. simpl in Hx. rewrite E in Hx. lia.
Qed.

Lemma double_of_Z_nonneg (n : Z) : 0 <= n -> nonneg_double (double_of_Z n).
Proof.
  intros Hn. unfold double_of_Z, binary_normalize.
  destruct n as [|p|p]; [done| |lia].
  unfold binary_round. destruct (shl_align _ _ _) as [mz ez].
  apply binary_round_aux_nonneg.
Qed.

Lemma SFsqrt_nonneg (f : spec_float) :
  nonneg_double f -> nonneg_double (SFsqrt prec emax f).
Proof.
  destruct f as [s|s| |s m e]; cbn [SFsqrt nonneg_double]; try done.
  - by intros ->.
  - intros ->. destruct (SFsqrt_core_binary prec emax (Z.pos m) e) as [[mz ez] lz].
    apply binary_round_aux_nonneg.
Qed.

Lemma SFmul_nonneg (f g : spec_float) :
  nonneg_double f -> nonneg_double g -> nonneg_double (SFmul prec emax f g).
Proof.
  destruct f as [s|s| |s m e], g as [s'|s'| |s' m' e'];
    cbn [SFmul nonneg_double]; try done; intros -> ->; try done.
  apply binary_round_aux_nonneg.
Qed.

Lemma scaled_sqrt_nonneg (n : Z) (x : Q) :
  0 <= n -> (0 <= x)%Q -> nonneg_double (scaled_sqrt n x).
Proof.
  intros Hn Hx. unfold scaled_sqrt.
  apply SFmul_nonneg; [by apply double_of_Z_nonneg|].
  by apply SFsqrt_nonneg, double_of_Q_nonneg.
Qed.

(** On a double that is not negative, [np.int] is the floor. *)
Lemma np_int_nonneg (f : spec_float) (c : Z) :
  nonneg_double f -> np_int f = Some c ->
  0 <= c /\ c = Qfloor (Q_of_double f).
Proof.
  destruct f as [s|s| |s m e]; simpl; try done.
  - intros _ [= <-]. done.
  - intros -> [= <-]. destruct e as [|p|p]; simpl.
    + rewrite Z.quot_1_r, Z.div_1_r. lia.
    + rewrite Z.quot_1_r, Z.div_1_r. split; [|done].
      pose proof (Z.pow_nonneg 2 (Z.pos p)). lia.
    + rewrite Z.quot_div_nonneg by lia. split; [|done].
      apply Z.div_pos; lia.
Qed.

(** For [0 <= x] the cut length is returned, is not negative, and is the floor
    of the double [n * np.sqrt(x)] whenever that double is finite. *)
Lemma np_int_scaled_sqrt_nonneg (n : Z) (x : Q) :
  0 <= n -> (0 <= x)%Q ->
  exists c, np_int_scaled_sqrt n x = Some c /\ 0 <= c /\
    (is_Some (np_int (scaled_sqrt n x)) ->
     c = Qfloor (Q_of_double (scaled_sqrt n x))).
Proof.
  intros Hn Hx. unfold np_int_scaled_sqrt.
  apply Qle_bool_true in Hx as Hb. rewrite Hb.
  pose proof (scaled_sqrt_nonneg n x Hn Hx) as Hs.
  destruct (np_int (scaled_sqrt n x)) as [c|] eqn:E.
  - destruct (np_int_nonneg _ _ Hs E) as [Hc Hfl]. by exists c.
  - eexists. split; [done|]. split; [apply Z.sqrt_nonneg|].
    intros [? ?]. done.
Qed.

Lemma np_int_scaled_sqrt_Some (n : Z) (x : Q) (c : Z) :
  np_int_scaled_sqrt n x = Some c -> (0 <= x)%Q.
Proof.
  unfold np_int_scaled_sqrt. destruct (Qle_bool 0 x) eqn:E; [|done].
  intros _. by apply Qle_bool_true.
Qed.


Lemma np_clip_bounds (a lo hi : Z) : lo <= hi -> lo <= np_clip a lo hi <= hi.
Proof. unfold np_clip. lia. Qed.

Lemma np_clip_mono (a b lo hi : Z) : a <= b -> np_clip a lo hi <= np_clip b lo hi.
Proof. unfold np_clip. lia. Qed.

(** ** Tensors *)

Lemma rectangular_size4 (t : tensor4) (C W H : nat) :
  rectangular t C W H -> t <> [] -> (0 < C)%nat -> (0 < W)%nat ->
  size4 t = (Z.of_nat (length t), Z.of_nat C, Z.of_nat W, Z.of_nat H).
Proof.
  intros Hr Hne HC HW. unfold size4.
  destruct t as [|s t]; [done|]. simpl.
  apply Forall_cons in Hr as [[Hs Hchs] _].
  destruct s as [|c s]; [simpl in Hs; lia|]. simpl.
  apply Forall_cons in Hchs as [[Hc Hrows] _].
  destruct c as [|r c]; [simpl in Hc; lia|]. simpl.
  apply Forall_cons in Hrows as [Hrow _].
  simpl in Hs, Hc. by rewrite Hs, Hc, Hrow.
Qed.

Lemma assign_channel_rect (b : bbox) (W H : nat) (dst src : list (list pixel)) :
  rect_channel W H dst -> rect_channel W H (assign_channel b dst src).
Proof.
  destruct b as [[[bbx1 bby1] bbx2] bby2]. intros [Hlen Hrows].
  unfold assign_channel. split; [by rewrite length_imap|].
  apply Forall_lookup. intros i r Hi.
  apply list_lookup_imap_Some in Hi as (row & Hrow & ->).
  rewrite Forall_lookup in Hrows. specialize (Hrows _ _ Hrow).
  destruct (in_range bbx1 bbx2 i); [|done].
  unfold assign_row. by rewrite length_imap.
Qed.

Lemma assign_sample_rect (b : bbox) (C W H : nat) (dst src : list (list (list pixel))) :
  rect_sample C W H dst -> rect_sample C W H (assign_sample b dst src).
Proof.
  intros [Hlen Hchs]. unfold assign_sample. split; [by rewrite length_imap|].
  apply Forall_lookup. intros c ch Hc.
  apply list_lookup_imap_Some in Hc as (ch0 & Hch0 & ->).
  apply assign_channel_rect. rewrite Forall_lookup in Hchs. eauto.
Qed.

Lemma cutmix_assign_length (t t' : tensor4) (idx : list nat) (b : bbox) :
  cutmix_assign t idx b = Some t' -> length t' = length t.
Proof.
  unfold cutmix_assign. destruct (index_select t idx) as [src|]; [|done]. simpl.
  case_decide as Hlen; [|done]. intros [= <-].
  rewrite length_zip_with. lia.
Qed.

Lemma cutmix_assign_nonempty (t t' : list (list (list (list Q)))) (idx : list nat)
    (b : Z * Z * Z * Z) :
  cutmix_assign t idx b = Some t' -> t <> [] -> t' <> [].
Proof.
  intros Hlen%cutmix_assign_length Hne ->. destruct t; [done|]. simpl in Hlen. lia.
Qed.

Lemma cutmix_assign_rect (t t' : tensor4) (idx : list nat) (b : bbox) (C W H : nat) :
  rectangular t C W H -> cutmix_assign t idx b = Some t' -> rectangular t' C W H.
Proof.
  unfold cutmix_assign, rectangular. intros Hr.
  destruct (index_select t idx) as [src|]; [|done]. simpl.
  case_decide as Hlen; [|done]. intros [= <-].
  apply Forall_lookup. intros n s Hn.
  apply lookup_zip_with_Some in Hn as (s0 & p & -> & Hs0 & _).
  apply assign_sample_rect. rewrite Forall_lookup in Hr. eauto.
Qed.

(** Gathering at a permutation of the indices never raises. *)
Lemma index_select_perm {A} (t : list A) (idx : list nat) :
  Permutation idx (seq 0 (length t)) ->
  exists src, index_select t idx = Some src /\ length src = length t /\
    forall n k, idx !! n = Some k -> src !! n = t !! k /\ (k < length t)%nat.
Proof.
  intros Hp. unfold index_select.
  assert (Hall : Forall (fun k => (k < length t)%nat) idx).
  { apply Forall_forall. intros k Hk. rewrite Hp in Hk.
    apply elem_of_seq in Hk. lia. }
  destruct (mapM (fun k => t !! k) idx) as [src|] eqn:E.
  - exists src. split; [done|]. apply mapM_Some in E.
    split.
    + apply Forall2_length in E. apply Permutation_length in Hp.
      rewrite length_seq in Hp. lia.
    + intros n k Hn. split.
      * destruct (Forall2_lookup_l _ _ _ _ _ E Hn) as (y & Hy & Hty). congruence.
      * rewrite Forall_lookup in Hall. eauto.
  - exfalso. apply mapM_None in E. apply Exists_exists in E as (k & Hk & Hnone).
    rewrite Forall_forall in Hall. apply Hall in Hk.
    apply lookup_ge_None in Hnone. lia.
Qed.

Lemma cutmix_assign_perm (t : tensor4) (idx : list nat) (b : bbox) :
  Permutation idx (seq 0 (length t)) -> is_Some (cutmix_assign t idx b).
Proof.
  intros Hp. destruct (index_select_perm t idx Hp) as (src & Hsrc & Hlen & _).
  unfold cutmix_assign. rewrite Hsrc. simpl. by rewrite decide_True.
Qed.

Lemma lookup_same_length {A B} (l : list A) (k : list B) (i : nat) :
  length l = length k -> is_Some (l !! i) -> is_Some (k !! i).
Proof.
  intros Hlen Hi. apply lookup_lt_is_Some. apply lookup_lt_is_Some in Hi. lia.
Qed.

Lemma lookup_assign_row (bby1 bby2 : Z) (dst src : list pixel) (j : nat) :
  length src = length dst ->
  assign_row bby1 bby2 dst src !! j =
    if in_range bby1 bby2 j then src !! j else dst !! j.
Proof.
  intros Hlen. unfold assign_row. rewrite list_lookup_imap.
  destruct (dst !! j) as [v|] eqn:Hd; simpl.
  - destruct (lookup_same_length dst src j) as [pv Hpv]; [done|eauto|].
    rewrite Hpv. simpl. by destruct (in_range bby1 bby2 j).
  - destruct (in_range bby1 bby2 j); [|done].
    symmetry. apply lookup_ge_None. apply lookup_ge_None in Hd. lia.
Qed.

Lemma lookup_assign_channel (b : bbox) (W H : nat) (dst src : list (list pixel))
    (i j : nat) :
  rect_channel W H dst -> rect_channel W H src ->
  (r ← assign_channel b dst src !! i; r !! j) =
    if in_box b i j then (r ← src !! i; r !! j) else (r ← dst !! i; r !! j).
Proof.
  destruct b as [[[bbx1 bby1] bbx2] bby2]. intros [Hd Hdr] [Hs Hsr].
  unfold assign_channel, in_box. rewrite list_lookup_imap.
  destruct (dst !! i) as [row|] eqn:Hrow; simpl.
  - destruct (lookup_same_length dst src i) as [prow Hprow]; [lia|eauto|].
    rewrite Hprow. simpl.
    rewrite Forall_lookup in Hdr, Hsr.
    specialize (Hdr _ _ Hrow). specialize (Hsr _ _ Hprow).
    destruct (in_range bbx1 bbx2 i); simpl; [|done].
    apply lookup_assign_row. lia.
  - assert (src !! i = None) as ->.
    { apply lookup_ge_None. apply lookup_ge_None in Hrow. lia. }
    simpl. by destruct (_ && _).
Qed.

Lemma lookup_assign_sample (b : bbox) (C W H : nat)
    (dst src : list (list (list pixel))) (c i j : nat) :
  rect_sample C W H dst -> rect_sample C W H src ->
  (ch ← assign_sample b dst src !! c; r ← ch !! i; r !! j) =
    if in_box b i j then (ch ← src !! c; r ← ch !! i; r !! j)
    else (ch ← dst !! c; r ← ch !! i; r !! j).
Proof.
  intros [Hd Hdc] [Hs Hsc]. unfold assign_sample. rewrite list_lookup_imap.
  destruct (dst !! c) as [ch|] eqn:Hch; simpl.
  - destruct (lookup_same_length dst src c) as [pch Hpch]; [lia|eauto|].
    rewrite Hpch. simpl. rewrite Forall_lookup in Hdc, Hsc.
    eapply lookup_assign_channel; eauto.
  - assert (src !! c = None) as ->.
    { apply lookup_ge_None. apply lookup_ge_None in Hch. lia. }
    simpl. by destruct (in_box b i j).
Qed.

(** The region assignment, pixel by pixel: inside the box the pixel of the
    sample at the permuted index, outside the pixel that was there. *)
Lemma tget_cutmix_assign (t t' : tensor4) (idx : list nat) (b : bbox) (C W H : nat) :
  rectangular t C W H -> cutmix_assign t idx b = Some t' ->
  forall n k c i j, idx !! n = Some k ->
    tget t' n c i j = if in_box b i j then tget t k c i j else tget t n c i j.
Proof.
  unfold cutmix_assign, rectangular. intros Hr.
  destruct (index_select t idx) as [src|] eqn:Hsrc; [|done]. simpl.
  case_decide as Hlen; [|done]. intros [= <-] n k c i j Hn.
  apply mapM_Some in Hsrc.
  destruct (Forall2_lookup_l _ _ _ _ _ Hsrc Hn) as (p & Hp & Hk).
  destruct (lookup_same_length src t n) as [s Hs]; [done|eauto|].
  unfold tget. rewrite lookup_zip_with, Hs, Hp, Hk. simpl.
  rewrite Forall_lookup in Hr.
  eapply lookup_assign_sample; eauto.
Qed.

(** ** Running the monad *)

#[local] Arguments rand_bbox : simpl never.
#[local] Arguments size4 : simpl never.
#[local] Arguments cutmix_assign : simpl never.
#[local] Arguments index_select : simpl never.
#[local] Arguments recomputed_lam : simpl never.
#[local] Arguments blended_loss : simpl never.
#[local] Arguments np_int_scaled_sqrt : simpl never.
#[local] Arguments box_of : simpl never.

Lemma draw_run `{F : Framework} {A} (sample : rng -> A * rng) (log : A -> event)
    (w : world) :
  draw sample log w =
    Some ((sample (rng_state w)).1,
          World (sample (rng_state w)).2 (net_state w) (inputs w)
                (trace w ++ [log (sample (rng_state w)).1])).
Proof. unfold draw. by destruct (sample (rng_state w)). Qed.

(** Unfolds the binds and the primitive operations of a computation applied
    to a world. *)
Ltac run :=
  repeat (progress (unfold mbind, M_bind, mret, M_ret, lift, raise, call,
                      get_inputs, set_inputs, model_call, np_random_rand,
                      np_random_beta, torch_randperm_call;
                    rewrite ?draw_run; simpl)).

Section Run.
Context {F : Framework}.

Lemma rand_bbox_run (w : world) (N C W H : Z) (lam : Q) :
  0 < W -> 0 < H -> (lam <= 1)%Q ->
  exists cut_h,
    np_int_scaled_sqrt H (1 - lam) = Some cut_h /\ 0 <= cut_h /\
    (is_Some (np_int (scaled_sqrt H (1 - lam))) ->
     cut_h = Qfloor (Q_of_double (scaled_sqrt H (1 - lam)))) /\
    let cx := np_randint W (rng_state w) in
    let cy := np_randint H cx.2 in
    rand_bbox (N, C, W, H) lam w =
      Some (box_of W H cut_h cy.1,
            World cy.2 (net_state w) (inputs w)
                  (trace w ++ [NpRandint W cx.1; NpRandint H cy.1])).
Proof.
  intros HW HH Hlam.
  assert (Hx : (0 <= 1 - lam)%Q).
  { by apply Qle_minus_iff in Hlam. }
  destruct (np_int_scaled_sqrt_nonneg W (1 - lam)) as (cw & Hcw & _); [lia|done|].
  destruct (np_int_scaled_sqrt_nonneg H (1 - lam)) as (ch & Hch & Hch0 & HchR); [lia|done|].
  exists ch. split; [done|]. split; [done|]. split; [done|].
  unfold rand_bbox, np_random_randint. rewrite Hcw, Hch.
  assert ((0 <? W) = true) as -> by lia.
  assert ((0 <? H) = true) as -> by lia.
  run. by rewrite <- app_assoc.
Qed.

(** The closure when CutMix does not trigger. *)
Lemma closure_plain (a : args) (labels : labels_t) (r : Q) (w : world) :
  cutmix_triggers a r = false ->
  closure a labels r w =
    Some (criterion (model_out (net_state w) (inputs w)) labels,
          World (rng_state w) (torch_step (Forward (inputs w)) (net_state w))
                (inputs w) (trace w ++ [Forward (inputs w)])).
Proof. intros Ht. unfold closure. rewrite Ht. by run. Qed.

(** The closure when CutMix triggers, on a well-formed batch. *)
Lemma closure_mixed `{!FrameworkLaws F} (a : args) (labels : labels_t) (r : Q)
    (w : world) (C W H : nat) :
  cutmix_triggers a r = true ->
  batch_ok (inputs w) labels C W H ->
  let x := inputs w in
  let d := sample_mix a (length x) (Z.of_nat W) (Z.of_nat H) (rng_state w) in
  exists cut_h target_b x',
    np_int_scaled_sqrt (Z.of_nat H) (1 - m_lam d) = Some cut_h /\
    0 <= cut_h /\
    index_select labels (m_perm d) = Some target_b /\
    let b := box_of (Z.of_nat W) (Z.of_nat H) cut_h (m_cy d) in
    cutmix_assign x (m_perm d) b = Some x' /\
    closure a labels r w =
      Some (blended_loss (model_out (net_state w) x') labels target_b
              (recomputed_lam b (size4 x')),
            World (m_rng d) (torch_step (Forward x') (net_state w)) x'
                  (trace w ++ mix_trace a (length x) (Z.of_nat W) (Z.of_nat H) d x')).
Proof.
  intros Ht (Hne & HC & HW & HH & Hrect & Hlab) x d.
  pose proof (np_beta_range (beta a) (beta a) (rng_state w)) as [_ Hlam1].
  pose proof (torch_randperm_perm (length x)
                (np_beta (beta a) (beta a) (rng_state w)).2) as Hperm.
  destruct (index_select_perm labels (m_perm d)) as (tb & Htb & _).
  { by rewrite Hlab. }
  set (w2 := World (torch_randperm (length x)
                      (np_beta (beta a) (beta a) (rng_state w)).2).2
               (net_state w) x
               (trace w ++ [NpBeta (beta a) (beta a) (m_lam d);
                            Randperm (length x) (m_perm d)])).
  destruct (rand_bbox_run w2 (Z.of_nat (length x)) (Z.of_nat C)
              (Z.of_nat W) (Z.of_nat H) (m_lam d))
    as (cut_h & Hcut & Hcut0 & _ & Hbox); [lia|lia|done|].
  set (b := box_of (Z.of_nat W) (Z.of_nat H) cut_h (m_cy d)).
  destruct (cutmix_assign_perm x (m_perm d) b Hperm) as [x' Hx'].
  exists cut_h, tb, x'. do 4 (split; [done|]).
  subst d w2 b x. unfold sample_mix in *. cbv zeta in Hbox. simpl in *.
  unfold closure. rewrite Ht. run.
  rewrite Htb. simpl.
  rewrite (rectangular_size4 _ _ _ _ Hrect Hne HC HW).
  rewrite <- app_assoc. simpl. rewrite Hbox. simpl.
  rewrite Hx'. simpl. unfold mix_trace. simpl. by rewrite <- !app_assoc.
Qed.

End Run.

(** ** The tape framework obeys the generators' laws *)

Lemma frac_range (q : Q) : (0 <= Tape.frac q /\ Tape.frac q < 1)%Q.
Proof.
  unfold Tape.frac. split.
  - apply (Qle_minus_iff (inject_Z (Qfloor q)) q). apply Qfloor_le.
  - pose proof (Qlt_floor q) as Hlt.
    rewrite inject_Z_plus in Hlt.
    apply Qlt_minus_iff. apply Qlt_minus_iff in Hlt.
    setoid_replace (1 + - (q - inject_Z (Qfloor q)))%Q
      with (inject_Z (Qfloor q) + inject_Z 1 + - q)%Q using relation Qeq; [done|].
    change (inject_Z 1) with 1%Q. ring.
Qed.

Lemma unit_clamp_range (q : Q) : (0 <= Tape.unit_clamp q /\ Tape.unit_clamp q <= 1)%Q.
Proof.
  unfold Tape.unit_clamp.
  destruct (Qle_bool q 0) eqn:E0; [done|].
  destruct (Qle_bool 1 q) eqn:E1; [done|].
  apply Qle_bool_false in E0, E1. split; by apply Qlt_le_weak.
Qed.

Lemma rotate_Permutation {A} (k : nat) (l : list A) : Permutation (rotate k l) l.
Proof.
  unfold rotate. rewrite Permutation_app_comm. by rewrite take_drop.
Qed.

#[local] Instance tape_laws : FrameworkLaws tape_framework.
Proof.
  split; simpl.
  - intros g. apply frac_range.
  - intros a b g. apply unit_clamp_range.
  - intros n g. apply rotate_Permutation.
  - intros high g Hh. unfold Tape.randint. simpl.
    apply Z.mod_pos_bound. lia.
Qed.

(** ** The bounding box *)

Lemma box_of_bounds (W H cut_h cy : Z) :
  0 <= H -> 0 <= cut_h ->
  let '(x1, y1, x2, y2) := box_of W H cut_h cy in
  x1 = 0 /\ x2 = W /\ 0 <= y1 /\ y1 <= y2 /\ y2 <= H.
Proof.
  intros HH Hc. unfold box_of.
  assert (0 <= cut_h / 2) by (apply Z.div_pos; lia).
  pose proof (np_clip_bounds (cy - cut_h / 2) 0 H HH).
  pose proof (np_clip_bounds (cy + cut_h / 2) 0 H HH).
  pose proof (np_clip_mono (cy - cut_h / 2) (cy + cut_h / 2) 0 H).
  repeat split; lia.
Qed.

(** What a returned box tells about the call. *)
Lemma rand_bbox_inv `{F : Framework} (w w' : world) (N C W H : Z) (lam : Q) (b : Z * Z * Z * Z) :
  rand_bbox (N, C, W, H) lam w = Some (b, w') ->
  0 < W /\ 0 < H /\ (lam <= 1)%Q /\
  exists cut_h cy, 0 <= cut_h /\ b = box_of W H cut_h cy.
Proof.
  unfold rand_bbox, np_random_randint.
  destruct (np_int_scaled_sqrt W (1 - lam)) as [cw|] eqn:Hcw; [|done].
  destruct (np_int_scaled_sqrt H (1 - lam)) as [ch|] eqn:Hch; [|done].
  apply np_int_scaled_sqrt_Some in Hcw as Hl.
  assert (Hlam : (lam <= 1)%Q) by (by apply (Qle_minus_iff lam 1)).
  unfold mbind, M_bind, lift, mret, M_ret, raise. simpl.
  destruct (0 <? W) eqn:HW; [|done].
  rewrite draw_run. simpl.
  destruct (0 <? H) eqn:HH; [|done].
  rewrite draw_run. simpl.
  intros [= <- _].
  split; [lia|]. split; [lia|]. split; [done|].
  exists ch, (np_randint H (np_randint W (rng_state w)).2).1.
  split; [|reflexivity].
  destruct (np_int_scaled_sqrt_nonneg H (1 - lam)) as (c & Hc & Hc0 & _);
    [lia|done|]. congruence.
Qed.

Lemma cutmix_triggers_iff (a : args) (r : Q) :
  cutmix_triggers a r = true <-> (0 < beta a)%Q /\ (r < cutmix_prob a)%Q.
Proof.
  unfold cutmix_triggers. rewrite andb_true_iff, !Qlt_bool_true. done.
Qed.

Lemma cutmix_triggers_off (a : args) (r : Q) :
  (0 <= r)%Q -> (beta a == 0)%Q \/ (cutmix_prob a == 0)%Q ->
  cutmix_triggers a r = false.
Proof.
  intros Hr Hoff. destruct (cutmix_triggers a r) eqn:E; [|done].
  apply cutmix_triggers_iff in E as [Hb Hp]. exfalso.
  destruct Hoff as [H0|H0]; rewrite H0 in *.
  - by apply (Qlt_irrefl 0).
  - by apply (Qlt_not_le r 0).
Qed.

(** ** One batch through the optimizer protocol *)

#[local] Arguments closure : simpl never.
#[local] Arguments sample_mix : simpl never.
#[local] Arguments mix_trace : simpl never.

Section Protocol.
Context `{F : Framework} `{!FrameworkLaws F}.

Lemma batch_ok_cutmix_assign (x x' : list (list (list (list Q)))) (labels : list Z)
    (idx : list nat) (b : Z * Z * Z * Z) (C W H : nat) :
  batch_ok x labels C W H -> cutmix_assign x idx b = Some x' ->
  batch_ok x' labels C W H.
Proof.
  intros (Hne & HC & HW & HH & Hrect & Hlab) Hx'.
  repeat split; try done.
  - by eapply cutmix_assign_nonempty.
  - by eapply cutmix_assign_rect.
  - apply cutmix_assign_length in Hx'. lia.
Qed.

(** SAM, CutMix triggering: both phases mix, the second on the tensor the
    first left, with draws taken from the generator the first left. *)
Lemma train_batch_sam_mixed (a : args) (base : string)
    (x : list (list (list (list Q)))) (labels : list Z) (w : world) (C W H : nat) :
  batch_ok x labels C W H ->
  let r := (np_rand (rng_state w)).1 in
  cutmix_triggers a r = true ->
  let N := length x in
  let dA := sample_mix a N (Z.of_nat W) (Z.of_nat H) (np_rand (rng_state w)).2 in
  let dB := sample_mix a N (Z.of_nat W) (Z.of_nat H) (m_rng dA) in
  exists cutA cutB tbA tbB xA xB,
    np_int_scaled_sqrt (Z.of_nat H) (1 - m_lam dA) = Some cutA /\
    np_int_scaled_sqrt (Z.of_nat H) (1 - m_lam dB) = Some cutB /\
    index_select labels (m_perm dA) = Some tbA /\
    index_select labels (m_perm dB) = Some tbB /\
    let bA := box_of (Z.of_nat W) (Z.of_nat H) cutA (m_cy dA) in
    let bB := box_of (Z.of_nat W) (Z.of_nat H) cutB (m_cy dB) in
    cutmix_assign x (m_perm dA) bA = Some xA /\
    cutmix_assign xA (m_perm dB) bB = Some xB /\
    let netA := torch_step ZeroGrad (net_state w) in
    let lossA := blended_loss (model_out netA xA) labels tbA
                   (recomputed_lam bA (size4 xA)) in
    let netB := torch_step (FirstStep true)
                  (torch_step (Backward lossA) (torch_step (Forward xA) netA)) in
    let lossB := blended_loss (model_out netB xB) labels tbB
                   (recomputed_lam bB (size4 xB)) in
    train_batch a (SAM base) (x, labels) w =
      Some (lossB,
            World (m_rng dB)
                  (torch_step (SecondStep true)
                     (torch_step (Backward lossB) (torch_step (Forward xB) netB)))
                  xB
                  (trace w ++ [ZeroGrad; NpRand r]
                     ++ mix_trace a N (Z.of_nat W) (Z.of_nat H) dA xA
                     ++ [Backward lossA; FirstStep true]
                     ++ mix_trace a N (Z.of_nat W) (Z.of_nat H) dB xB
                     ++ [Backward lossB; SecondStep true])).
Proof.
  intros Hok r Ht N dA dB.
  pose (w0 := World (np_rand (rng_state w)).2 (torch_step ZeroGrad (net_state w)) x
                ((trace w ++ [ZeroGrad]) ++ [NpRand r])).
  destruct (closure_mixed a labels r w0 C W H Ht Hok)
    as (cutA & tbA & xA & HcutA & _ & HtbA & HxA & HrunA).
  subst w0. unfold sample_mix in HcutA, HtbA, HxA, HrunA.
  simpl in HcutA, HtbA, HxA, HrunA.
  pose proof (batch_ok_cutmix_assign _ _ _ _ _ _ _ _ Hok HxA) as HokA.
  pose proof (cutmix_assign_length _ _ _ _ HxA) as HlenA.
  match type of HrunA with
  | _ = Some (?l, World ?g ?n ?i ?t) =>
      set (lossA := l) in *;
      pose (w1 := World g (torch_step (FirstStep true) (torch_step (Backward lossA) n))
                    i ((t ++ [Backward lossA]) ++ [FirstStep true]))
  end.
  destruct (closure_mixed a labels r w1 C W H Ht HokA)
    as (cutB & tbB & xB & HcutB & _ & HtbB & HxB & HrunB).
  subst w1. unfold sample_mix in HcutB, HtbB, HxB, HrunB.
  simpl in HcutB, HtbB, HxB, HrunB.
  rewrite HlenA in HtbB. rewrite HlenA in HxB. rewrite HlenA in HrunB.
  exists cutA, cutB, tbA, tbB, xA, xB.
  subst dA dB N. unfold sample_mix. simpl.
  do 6 (split; [done|]).
  unfold train_batch. run. fold r. rewrite HrunA. simpl.
  rewrite HrunB. simpl.
  do 3 f_equal. unfold mix_trace. simpl. rewrite <- !app_assoc. reflexivity.
Qed.

(** The closure always returns on a well-formed batch: some draws, then one
    forward pass on the tensor it leaves, which is again well formed. *)
Lemma closure_total (a : args) (labels : list Z) (r : Q) (w : world) (C W H : nat) :
  batch_ok (inputs w) labels C W H ->
  exists loss x' g' draws,
    closure a labels r w =
      Some (loss,
            World g' (torch_step (Forward x') (net_state w)) x'
                  (trace w ++ draws ++ [Forward x'])) /\
    batch_ok x' labels C W H /\
    forallb is_draw draws = true /\
    forallb (fun ev => negb (is_uniform_draw ev)) draws = true /\
    (cutmix_triggers a r = false ->
     draws = [] /\ x' = inputs w /\ g' = rng_state w).
Proof.
  intros Hok. destruct (cutmix_triggers a r) eqn:Ht.
  - destruct (closure_mixed a labels r w C W H Ht Hok)
      as (cut_h & tb & x' & _ & _ & _ & Hx' & Hrun).
    cbv zeta in Hrun. rewrite Hrun.
    eexists _, x', _, [_; _; _; _]. split; [reflexivity|].
    split; [by eapply batch_ok_cutmix_assign|].
    split; [done|]. split; [done|]. intros [=].
  - rewrite (closure_plain a labels r w Ht).
    eexists _, _, _, []. split; [reflexivity|].
    split; [exact Hok|]. split; [done|]. split; [done|]. done.
Qed.

(** The closure on a well-formed batch, in either branch: the loss it returns,
    through the model at the parameters of the moment, and the world it
    leaves. *)
Lemma closure_returns (a : args) (labels : list Z) (r : Q) (w : world) (C W H : nat) :
  batch_ok (inputs w) labels C W H ->
  exists loss x' g' draws,
    closure a labels r w =
      Some (loss,
            World g' (torch_step (Forward x') (net_state w)) x'
                  (trace w ++ draws ++ [Forward x'])) /\
    batch_ok x' labels C W H /\
    forallb is_draw draws = true /\
    if cutmix_triggers a r then
      let d := sample_mix a (length (inputs w)) (Z.of_nat W) (Z.of_nat H)
                 (rng_state w) in
      exists cut_h target_b,
        np_int_scaled_sqrt (Z.of_nat H) (1 - m_lam d) = Some cut_h /\
        index_select labels (m_perm d) = Some target_b /\
        let b := box_of (Z.of_nat W) (Z.of_nat H) cut_h (m_cy d) in
        cutmix_assign (inputs w) (m_perm d) b = Some x' /\
        loss = blended_loss (model_out (net_state w) x') labels target_b
                 (recomputed_lam b (size4 x')) /\
        draws = [NpBeta (beta a) (beta a) (m_lam d);
                 Randperm (length (inputs w)) (m_perm d);
                 NpRandint (Z.of_nat W) (m_cx d);
                 NpRandint (Z.of_nat H) (m_cy d)] /\
        g' = m_rng d
    else
      x' = inputs w /\
      loss = criterion (model_out (net_state w) (inputs w)) labels /\
      draws = [] /\ g' = rng_state w.
Proof.
  intros Hok. destruct (cutmix_triggers a r) eqn:Ht.
  - destruct (closure_mixed a labels r w C W H Ht Hok)
      as (cut_h & tb & x' & Hcut & _ & Htb & Hx' & Hrun).
    cbv zeta in Hcut, Htb, Hx', Hrun. rewrite Hrun.
    eexists _, x', _, [_; _; _; _]. split; [reflexivity|].
    split; [by eapply batch_ok_cutmix_assign|].
    split; [done|].
    exists cut_h, tb. by repeat split.
  - rewrite (closure_plain a labels r w Ht).
    eexists _, _, _, []. split; [reflexivity|].
    split; [exact Hok|]. split; [done|]. done.
Qed.

(** SAM, CutMix not triggering: both phases run on the batch as loaded. *)
Lemma train_batch_sam_plain (a : args) (base : string)
    (x : list (list (list (list Q)))) (labels : list Z) (w : world) :
  let r := (np_rand (rng_state w)).1 in
  cutmix_triggers a r = false ->
  let netA := torch_step ZeroGrad (net_state w) in
  let lossA := criterion (model_out netA x) labels in
  let netB := torch_step (FirstStep true)
                (torch_step (Backward lossA) (torch_step (Forward x) netA)) in
  let lossB := criterion (model_out netB x) labels in
  train_batch a (SAM base) (x, labels) w =
    Some (lossB,
          World (np_rand (rng_state w)).2
                (torch_step (SecondStep true)
                   (torch_step (Backward lossB) (torch_step (Forward x) netB)))
                x
                (trace w ++ [ZeroGrad; NpRand r; Forward x; Backward lossA;
                             FirstStep true; Forward x; Backward lossB;
                             SecondStep true])).
Proof.
  intros r Ht netA lossA netB lossB.
  unfold train_batch. run. fold r.
  rewrite (closure_plain a labels r _ Ht). simpl.
  rewrite (closure_plain a labels r _ Ht). simpl.
  do 3 f_equal. by rewrite <- !app_assoc.
Qed.

End Protocol.

(** ** Checkpoints *)

Lemma float_inf_le_refl (x : float_inf) : float_inf_le x x.
Proof. destruct x; simpl; [apply Qle_refl|done]. Qed.

Lemma float_inf_le_trans (x y z : float_inf) :
  float_inf_le x y -> float_inf_le y z -> float_inf_le x z.
Proof.
  destruct x, y, z; simpl; try done. apply Qle_trans.
Qed.

Lemma py_min_le (best : float_inf) (v : Q) : float_inf_le (py_min best v) best.
Proof.
  destruct best as [b|]; simpl; [|done].
  destruct (Qlt_bool v b) eqn:E; simpl.
  - apply Qlt_bool_true in E. by apply Qlt_le_weak.
  - apply Qle_refl.
Qed.

Lemma checkpoint_best_f1 (st : best_state) (f1 vl : Q) :
  (best_f1_score st <= best_f1_score (checkpoint st f1 vl).1)%Q.
Proof.
  unfold checkpoint. destruct (Qlt_bool (best_f1_score st) f1) eqn:E; simpl.
  - apply Qlt_bool_true in E. by apply Qlt_le_weak.
  - apply Qle_refl.
Qed.

Lemma checkpoint_best_val_loss (st : best_state) (f1 vl : Q) :
  best_val_loss (checkpoint st f1 vl).1 = py_min (best_val_loss st) vl.
Proof. unfold checkpoint. by destruct (Qlt_bool (best_f1_score st) f1). Qed.

Lemma baseline_checkpoint_best_f1 (st : baseline_best_state) (f1 vl va : Q) :
  (best_val_f1_score st <= best_val_f1_score (baseline_checkpoint st f1 vl va).1)%Q.
Proof.
  unfold baseline_checkpoint.
  destruct (Qlt_bool (best_val_f1_score st) f1) eqn:E; simpl.
  - apply Qlt_bool_true in E. by apply Qlt_le_weak.
  - apply Qle_refl.
Qed.

Lemma baseline_checkpoint_best_val_loss (st : baseline_best_state) (f1 vl va : Q) :
  b_best_val_loss (baseline_checkpoint st f1 vl va).1 = py_min (b_best_val_loss st) vl.
Proof.
  unfold baseline_checkpoint. by destruct (Qlt_bool (best_val_f1_score st) f1).
Qed.

(** Along a run the best F1 only grows and the best loss only shrinks. *)
Lemma checkpoint_run_monotone (epochs : list (Q * Q)) (st : best_state) (i j : nat)
    (x y : best_state) :
  (i <= j)%nat ->
  (st :: (checkpoint_run st epochs).*1) !! i = Some x ->
  (st :: (checkpoint_run st epochs).*1) !! j = Some y ->
  (best_f1_score x <= best_f1_score y)%Q /\
  float_inf_le (best_val_loss y) (best_val_loss x).
Proof.
  revert st i j x y.
  induction epochs as [|[f1 vl] rest IH]; intros st i j x y Hij Hi Hj.
  - destruct i, j; simpl in *; try done.
    injection Hi as <-. injection Hj as <-.
    split; [apply Qle_refl|apply float_inf_le_refl].
  - simpl in Hi, Hj. destruct i as [|i].
    + injection Hi as <-. destruct j as [|j].
      * injection Hj as <-. split; [apply Qle_refl|apply float_inf_le_refl].
      * destruct (IH (checkpoint st f1 vl).1 0%nat j _ y ltac:(lia) eq_refl Hj) as [H1 H2].
        split.
        -- eapply Qle_trans; [apply (checkpoint_best_f1 st f1 vl)|exact H1].
        -- eapply float_inf_le_trans; [exact H2|].
           rewrite checkpoint_best_val_loss. apply py_min_le.
    + destruct j as [|j]; [lia|].
      apply (IH (checkpoint st f1 vl).1 i j x y); [lia|done|done].
Qed.

Lemma baseline_checkpoint_run_monotone (epochs : list (Q * Q * Q))
    (st : baseline_best_state) (i j : nat) (x y : baseline_best_state) :
  (i <= j)%nat ->
  (st :: (baseline_checkpoint_run st epochs).*1) !! i = Some x ->
  (st :: (baseline_checkpoint_run st epochs).*1) !! j = Some y ->
  (best_val_f1_score x <= best_val_f1_score y)%Q /\
  float_inf_le (b_best_val_loss y) (b_best_val_loss x).
Proof.
  revert st i j x y.
  induction epochs as [|[[f1 vl] va] rest IH]; intros st i j x y Hij Hi Hj.
  - destruct i, j; simpl in *; try done.
    injection Hi as <-. injection Hj as <-.
    split; [apply Qle_refl|apply float_inf_le_refl].
  - simpl in Hi, Hj. destruct i as [|i].
    + injection Hi as <-. destruct j as [|j].
      * injection Hj as <-. split; [apply Qle_refl|apply float_inf_le_refl].
      * destruct (IH (baseline_checkpoint st f1 vl va).1 0%nat j _ y
                    ltac:(lia) eq_refl Hj) as [H1 H2].
        split.
        -- eapply Qle_trans; [apply (baseline_checkpoint_best_f1 st f1 vl va)|exact H1].
        -- eapply float_inf_le_trans; [exact H2|].
           rewrite baseline_checkpoint_best_val_loss. apply py_min_le.
    + destruct j as [|j]; [lia|].
      apply (IH (baseline_checkpoint st f1 vl va).1 i j x y); [lia|done|done].
Qed.

Section Orchestrator.
Context `{F : Framework}.

(** The running bests change once per epoch, by the policy, after the
    validation pass. *)
Lemma epoch_checkpoint (a : args) (opt : optimizer_obj)
    (train_loader val_loader : list (list (list (list (list Q))) * list Z))
    (n : Z) (st : best_state) (w w' : world) (r : best_state * list artifact) :
  epoch a opt train_loader val_loader n st w = Some (r, w') ->
  exists f1 vl, r = checkpoint st f1 vl.
Proof.
  unfold epoch, mbind, M_bind, mret, M_ret.
  destruct (train_epoch a opt train_loader w) as [[tl w1]|]; [|done].
  destruct (call SchedulerStep w1) as [[[] w2]|]; [|done].
  destruct (validate val_loader n w2) as [[v w3]|]; [|done].
  intros [= <- _]. eauto.
Qed.

Lemma baseline_epoch_checkpoint
    (train_loader val_loader : list (list (list (list (list Q))) * list Z))
    (n : Z) (st : baseline_best_state) (w w' : world)
    (r : baseline_best_state * list artifact) :
  baseline_epoch train_loader val_loader n st w = Some (r, w') ->
  exists f1 vl va, r = baseline_checkpoint st f1 vl va.
Proof.
  unfold baseline_epoch, mbind, M_bind, mret, M_ret.
  destruct (call ModelTrain w) as [[[] w0]|]; [|done].
  destruct (baseline_train_batches train_loader w0) as [[[] w1]|]; [|done].
  destruct (call SchedulerStep w1) as [[[] w2]|]; [|done].
  destruct (baseline_validate val_loader n w2) as [[v w3]|]; [|done].
  destruct (print_val_summary _ w3) as [[[] w4]|]; [|done].
  intros [= <- _]. eauto.
Qed.

Lemma train_epochs_checkpoint_run (a : args) (opt : optimizer_obj)
    (loaders : list (list (list (list (list (list Q))) * list Z)
                     * list (list (list (list (list Q))) * list Z)))
    (n : Z) (st : best_state) (w w' : world) (h : list (best_state * list artifact)) :
  train_epochs a opt loaders n st w = Some (h, w') ->
  exists ms, length ms = length loaders /\ h = checkpoint_run st ms.
Proof.
  revert st w w' h. induction loaders as [|[tl vl] rest IH]; intros st w w' h.
  - simpl. intros [= <- _]. by exists [].
  - simpl. unfold mbind, M_bind, mret, M_ret.
    destruct (epoch a opt tl vl n st w) as [[r w1]|] eqn:Er; [|done].
    destruct (train_epochs a opt rest n r.1 w1) as [[h' w2]|] eqn:Eh; [|done].
    intros [= <- _].
    apply epoch_checkpoint in Er as (f1 & v & ->).
    apply IH in Eh as (ms & Hlen & ->).
    exists ((f1, v) :: ms). simpl. split; [lia|done].
Qed.

End Orchestrator.

(** ** Validation *)

Lemma fold_left_Qplus (l : list Q) (a : Q) :
  (fold_left Qplus l a == a + np_sum l)%Q.
Proof.
  revert a. induction l as [|q l IH]; intros a; simpl.
  - ring.
  - rewrite IH. ring.
Qed.

Section Validation.
Context `{F : Framework}.

(** The loop with its accumulators against the forward passes alone. *)
Lemma val_loop_run (val_loader : list (list (list (list (list Q))) * list Z))
    (acc : val_acc_t) (w : world) :
  exists outs w',
    val_forwards val_loader w = Some (outs, w') /\
    length outs = length val_loader /\
    val_loop acc val_loader w =
      Some (ValAcc (val_loss_items acc ++ batch_losses val_loader outs)
                   (val_acc_items acc ++ batch_matches val_loader outs)
                   (match val_figure acc with
                    | Some f => Some f
                    | None => first_figure val_loader outs
                    end)
                   (fold_left Qplus (batch_f1s val_loader outs) (epoch_f1 acc))
                   (y_pred acc ++ concat (map argmax outs))
                   (y_true acc ++ concat val_loader.*2),
            w') /\
    baseline_val_loop acc val_loader w =
      Some (ValAcc (val_loss_items acc ++ batch_losses val_loader outs)
                   (val_acc_items acc ++ batch_matches val_loader outs)
                   (match val_figure acc with
                    | Some f => Some f
                    | None => first_figure val_loader outs
                    end)
                   (epoch_f1 acc)
                   (y_pred acc ++ concat (map argmax outs))
                   (y_true acc ++ concat val_loader.*2),
            w').
Proof.
  revert acc w. induction val_loader as [|[x labels] rest IH]; intros acc w.
  - exists [], w. simpl. rewrite !app_nil_r.
    repeat split; destruct acc as [? ? [f|] ? ? ?]; reflexivity.
  - set (outs := model_out (net_state w) x).
    set (w1 := World (rng_state w) (torch_step (Forward x) (net_state w)) x
                 (trace w ++ [Forward x])).
    set (fig := match val_figure acc with
                | None => Some (grid_image x labels (argmax outs))
                | Some f => Some f
                end).
    destruct (IH (ValAcc (val_loss_items acc ++ [criterion outs labels])
                    (val_acc_items acc ++ [count_matches labels (argmax outs)])
                    fig (epoch_f1 acc + f1_score_macro labels (argmax outs))%Q
                    (y_pred acc ++ argmax outs) (y_true acc ++ labels)) w1)
      as (more & w' & Hfw & Hlen & Hloop & _).
    destruct (IH (ValAcc (val_loss_items acc ++ [criterion outs labels])
                    (val_acc_items acc ++ [count_matches labels (argmax outs)])
                    fig (epoch_f1 acc)
                    (y_pred acc ++ argmax outs) (y_true acc ++ labels)) w1)
      as (more' & w'' & Hfw' & _ & _ & Hbase).
    rewrite Hfw in Hfw'. injection Hfw' as <- <-.
    exists (outs :: more), w'. simpl in *.
    split; [|split; [by rewrite Hlen|split]].
    + run. fold outs w1. by rewrite Hfw.
    + run. fold outs w1 fig. rewrite Hloop. simpl.
      rewrite <- !app_assoc. simpl. do 3 f_equal.
      subst fig. by destruct (val_figure acc).
    + run. fold outs w1 fig. rewrite Hbase. simpl.
      rewrite <- !app_assoc. simpl. do 3 f_equal.
      subst fig. by destruct (val_figure acc).
Qed.

End Validation.

Section Specification.
Context {F : Framework}.


(** C5.  For every box [rand_bbox] returns, the recomputed ratio
    [1 - (x2 - x1) * (y2 - y1) / (W * H)] lies in [[0, 1]]; when the box has
    zero area it is 1 and the blended loss is the [target_a] term alone. *)
Theorem recomputed_lam_unit_interval (w w' : world) (N C W H : Z) (lam : Q)
    (x1 y1 x2 y2 : Z) :
  rand_bbox (N, C, W, H) lam w = Some ((x1, y1, x2, y2), w') ->
  let lam' := recomputed_lam (x1, y1, x2, y2) (N, C, W, H) in
  (lam' == 1 - inject_Z ((x2 - x1) * (y2 - y1)) / inject_Z (W * H))%Q /\
  (0 <= lam')%Q /\ (lam' <= 1)%Q /\
  ((x2 - x1) * (y2 - y1) = 0 ->
   (lam' == 1)%Q /\
   forall outs target_a target_b,
     (blended_loss outs target_a target_b lam' == criterion outs target_a)%Q).
Proof.
  intros Hrun lam'.
  apply rand_bbox_inv in Hrun as (HW & HH & _ & cut_h & cy & Hc & Hb).
  pose proof (box_of_bounds W H cut_h cy ltac:(lia) Hc) as Hbd.
  rewrite <- Hb in Hbd. destruct Hbd as (-> & -> & Hy1 & Hy12 & Hy2).
  subst lam'. unfold recomputed_lam.
  replace (H * W) with (W * H) by lia.
  split; [reflexivity|].
  assert (Harea : 0 <= (W - 0) * (y2 - y1) <= W * H) by nia.
  assert (Htot : 0 < W * H) by nia.
  set (p := (W - 0) * (y2 - y1)) in *. set (q := W * H) in *.
  assert (Hfrac : (0 <= inject_Z p / inject_Z q /\ inject_Z p / inject_Z q <= 1)%Q).
  { destruct q as [|q'|q']; try lia.
    rewrite <- Qmake_Qdiv. unfold Qle. simpl. lia. }
  destruct Hfrac as [Hf0 Hf1].
  split.
  { apply (Qle_minus_iff (inject_Z p / inject_Z q) 1). exact Hf1. }
  split.
  { apply Qle_minus_iff.
    setoid_replace (1 + - (1 - inject_Z p / inject_Z q))%Q
      with (inject_Z p / inject_Z q)%Q using relation Qeq by ring.
    exact Hf0. }
  intros Hzero.
  assert (Hone : (1 - inject_Z p / inject_Z q == 1)%Q).
  { rewrite Hzero. unfold Qdiv. change (inject_Z 0) with 0%Q. ring. }
  split; [exact Hone|].
  intros outs ta tb. unfold blended_loss. rewrite Hone. ring.
Qed.

(** C3.  For every batch and every draw [r] in [[0, 1)], if [beta = 0] or
    [cutmix_prob = 0] the closure computes the unmixed loss
    [criterion(model(inputs), labels)], which is the baseline script's loss,
    and leaves the batch tensor as it was. *)
Theorem closure_without_cutmix (a : args) (labels : list Z) (r : Q) (w : world) :
  (0 <= r /\ r < 1)%Q ->
  (beta a == 0)%Q \/ (cutmix_prob a == 0)%Q ->
  closure a labels r w = baseline_loss labels w /\
  exists w',
    closure a labels r w =
      Some (criterion (model_out (net_state w) (inputs w)) labels, w') /\
    inputs w' = inputs w.
Proof.
  intros [Hr _] Hoff.
  pose proof (cutmix_triggers_off a r Hr Hoff) as Ht.
  rewrite (closure_plain a labels r w Ht). split.
  - unfold baseline_loss, model_call, call, mbind, M_bind, mret, M_ret. done.
  - eexists. split; [reflexivity|done].
Qed.

(** C1.  When CutMix triggers ([beta > 0] and [r < cutmix_prob]) the closure
    samples [lam], draws a permutation of the batch indices, overwrites in the
    batch tensor, for every sample, the box region by the region of the sample
    at the permuted index, recomputes [lam] as one minus the box area over the
    image area, runs one forward pass on the mixed batch and returns
    [criterion(outs, labels) * lam + criterion(outs, labels[perm]) * (1 - lam)];
    otherwise it returns [criterion(outs, labels)] on the batch as it was. *)
Theorem closure_cutmix_spec `{!FrameworkLaws F} (a : args) (labels : list Z)
    (r : Q) (w : world) (C W H : nat) :
  batch_ok (inputs w) labels C W H ->
  let x := inputs w in
  let d := sample_mix a (length x) (Z.of_nat W) (Z.of_nat H) (rng_state w) in
  ((0 < beta a)%Q /\ (r < cutmix_prob a)%Q ->
   exists (x1 y1 x2 y2 : Z) (target_b : list Z) (x' : list (list (list (list Q))))
          (w' : world) (draws : list event),
     Permutation (m_perm d) (seq 0 (length x)) /\
     index_select labels (m_perm d) = Some target_b /\
     (exists wb wb', rand_bbox (size4 x) (m_lam d) wb = Some ((x1, y1, x2, y2), wb')) /\
     (forall n k c i j, m_perm d !! n = Some k ->
        tget x' n c i j =
          if in_box (x1, y1, x2, y2) i j then tget x k c i j else tget x n c i j) /\
     let lam' := recomputed_lam (x1, y1, x2, y2) (size4 x') in
     (lam' == 1 - inject_Z ((x2 - x1) * (y2 - y1))
                  / inject_Z (Z.of_nat W * Z.of_nat H))%Q /\
     let outs := model_out (net_state w) x' in
     closure a labels r w =
       Some ((criterion outs labels * lam' + criterion outs target_b * (1 - lam'))%Q,
             w') /\
     inputs w' = x' /\
     trace w' = trace w ++ draws ++ [Forward x'] /\
     forallb is_draw draws = true) /\
  (~ ((0 < beta a)%Q /\ (r < cutmix_prob a)%Q) ->
   exists w',
     closure a labels r w = Some (criterion (model_out (net_state w) x) labels, w') /\
     inputs w' = x /\
     trace w' = trace w ++ [Forward x]).
Proof.
  intros Hok x d. split.
  - intros Ht. apply cutmix_triggers_iff in Ht.
    destruct (closure_mixed a labels r w C W H Ht Hok)
      as (cut_h & tb & x' & Hcut & Hcut0 & Htb & Hx' & Hrun).
    fold x d in Hcut, Htb, Hx', Hrun.
    destruct Hok as (Hne & HC & HW & HH & Hrect & Hlab).
    set (wb := World (torch_randperm (length x)
                        (np_beta (beta a) (beta a) (rng_state w)).2).2
                 (net_state w) x (trace w)).
    destruct (rand_bbox_run wb (Z.of_nat (length x)) (Z.of_nat C)
                (Z.of_nat W) (Z.of_nat H) (m_lam d))
      as (cut_h' & Hcut' & _ & _ & Hbox); [lia|lia|apply np_beta_range|].
    rewrite Hcut in Hcut'. injection Hcut' as <-.
    exists 0, (np_clip (m_cy d - cut_h / 2) 0 (Z.of_nat H)), (Z.of_nat W),
           (np_clip (m_cy d + cut_h / 2) 0 (Z.of_nat H)), tb, x'.
    eexists _, [_; _; _; _].
    split; [apply torch_randperm_perm|].
    split; [done|].
    split.
    { exists wb. eexists.
      rewrite (rectangular_size4 x _ _ _ Hrect Hne HC HW). exact Hbox. }
    split; [by eapply tget_cutmix_assign|].
    assert (Hsz : size4 x' = (Z.of_nat (length x'), Z.of_nat C, Z.of_nat W, Z.of_nat H)).
    { apply rectangular_size4; [by eapply cutmix_assign_rect| |done|done].
      by eapply cutmix_assign_nonempty. }
    split.
    { rewrite Hsz. unfold recomputed_lam.
      by replace (Z.of_nat H * Z.of_nat W) with (Z.of_nat W * Z.of_nat H) by lia. }
    split; [exact Hrun|]. simpl. split; [done|]. split; [reflexivity|done].
  - intros Hnt.
    assert (Ht : cutmix_triggers a r = false).
    { destruct (cutmix_triggers a r) eqn:E; [|done].
      by apply cutmix_triggers_iff in E. }
    rewrite (closure_plain a labels r w Ht).
    eexists. split; [reflexivity|]. by split.
Qed.

(** C2.  With the SAM optimizer a batch goes through: gradients cleared, the
    draw [r], the closure's forward pass and the backward pass on the loss it
    returned (phase A), [first_step(zero_grad=True)], a second closure call
    at the perturbed parameters with its own forward pass and a backward pass
    on the loss that call returned (phase B), [second_step(zero_grad=True)];
    the batch returns the second loss.  With any other optimizer: one closure
    call, the backward pass on its loss, then one [optimizer.step()], and
    neither [first_step] nor [second_step].  In either phase the loss is the
    closure's: the criterion (blended when CutMix triggers) of the model's
    output at the parameters of that moment. *)
Theorem sam_two_phase_protocol `{!FrameworkLaws F} (a : args)
    (x : list (list (list (list Q)))) (labels : list Z) (w : world) (C W H : nat) :
  batch_ok x labels C W H ->
  let r := (np_rand (rng_state w)).1 in
  let w0 := World (np_rand (rng_state w)).2 (torch_step ZeroGrad (net_state w)) x
                  (trace w ++ [ZeroGrad; NpRand r]) in
  let closure_value (wc : world) (loss : Q) (x' : list (list (list (list Q))))
        (draws : list event) (g' : rng) : Prop :=
    if cutmix_triggers a r then
      let d := sample_mix a (length (inputs wc)) (Z.of_nat W) (Z.of_nat H)
                 (rng_state wc) in
      exists cut_h target_b,
        np_int_scaled_sqrt (Z.of_nat H) (1 - m_lam d) = Some cut_h /\
        index_select labels (m_perm d) = Some target_b /\
        let b := box_of (Z.of_nat W) (Z.of_nat H) cut_h (m_cy d) in
        cutmix_assign (inputs wc) (m_perm d) b = Some x' /\
        loss = blended_loss (model_out (net_state wc) x') labels target_b
                 (recomputed_lam b (size4 x')) /\
        draws = [NpBeta (beta a) (beta a) (m_lam d);
                 Randperm (length (inputs wc)) (m_perm d);
                 NpRandint (Z.of_nat W) (m_cx d);
                 NpRandint (Z.of_nat H) (m_cy d)] /\
        g' = m_rng d
    else
      x' = inputs wc /\
      loss = criterion (model_out (net_state wc) (inputs wc)) labels /\
      draws = [] /\ g' = rng_state wc in
  exists lossA xA gA drawsA,
    let wA := World gA (torch_step (Forward xA) (net_state w0)) xA
                    (trace w0 ++ drawsA ++ [Forward xA]) in
    closure a labels r w0 = Some (lossA, wA) /\
    closure_value w0 lossA xA drawsA gA /\
    forallb is_draw drawsA = true /\
    (optimizer a = "SAM"%string ->
     let w1 := after_call (FirstStep true) (after_call (Backward lossA) wA) in
     exists lossB xB gB drawsB,
       let wB := World gB (torch_step (Forward xB) (net_state w1)) xB
                       (trace w1 ++ drawsB ++ [Forward xB]) in
       closure a labels r w1 = Some (lossB, wB) /\
       closure_value w1 lossB xB drawsB gB /\
       forallb is_draw drawsB = true /\
       train_batch a (make_optimizer a) (x, labels) w =
         Some (lossB, after_call (SecondStep true) (after_call (Backward lossB) wB)) /\
       trace (after_call (SecondStep true) (after_call (Backward lossB) wB))
         = trace w ++ [ZeroGrad; NpRand r]
             ++ drawsA ++ [Forward xA; Backward lossA; FirstStep true]
             ++ drawsB ++ [Forward xB; Backward lossB; SecondStep true]) /\
    (optimizer a <> "SAM"%string ->
     train_batch a (make_optimizer a) (x, labels) w =
       Some (lossA, after_call OptStep (after_call (Backward lossA) wA)) /\
     trace (after_call OptStep (after_call (Backward lossA) wA))
       = trace w ++ [ZeroGrad; NpRand r]
           ++ drawsA ++ [Forward xA; Backward lossA; OptStep] /\
     forall ev,
       ev ∈ [ZeroGrad; NpRand r] ++ drawsA ++ [Forward xA; Backward lossA; OptStep] ->
       is_sam_step ev = false).
Proof.
  intros Hok r w0 closure_value.
  destruct (closure_returns a labels r w0 C W H Hok)
    as (lossA & xA & gA & drawsA & HrunA & HokA & HdA & HvalA).
  exists lossA, xA, gA, drawsA. intros wA.
  split; [exact HrunA|]. split; [exact HvalA|]. split; [exact HdA|].
  split.
  - intros Hopt w1.
    destruct (closure_returns a labels r w1 C W H HokA)
      as (lossB & xB & gB & drawsB & HrunB & _ & HdB & HvalB).
    exists lossB, xB, gB, drawsB. intros wB.
    split; [exact HrunB|]. split; [exact HvalB|]. split; [exact HdB|].
    split.
    + unfold make_optimizer. rewrite Hopt. simpl.
      unfold train_batch. run. fold r.
      match goal with |- context [closure a labels r ?ww] =>
        replace ww with w0
          by (subst w0; simpl; rewrite <- ?app_assoc; reflexivity)
      end.
      rewrite HrunA. simpl.
      match goal with |- context [closure a labels r ?ww] =>
        replace ww with w1 by reflexivity
      end.
      rewrite HrunB. reflexivity.
    + subst wB w1 wA w0. unfold after_call. simpl.
      rewrite <- !app_assoc. reflexivity.
  - intros Hopt. split; [|split].
    + unfold make_optimizer. apply String.eqb_neq in Hopt. rewrite Hopt. simpl.
      unfold train_batch. run. fold r.
      match goal with |- context [closure a labels r ?ww] =>
        replace ww with w0
          by (subst w0; simpl; rewrite <- ?app_assoc; reflexivity)
      end.
      rewrite HrunA. reflexivity.
    + subst wA w0. unfold after_call. simpl.
      rewrite <- !app_assoc. reflexivity.
    + intros ev Hev. simpl in Hev.
      rewrite !elem_of_cons, elem_of_app, !elem_of_cons in Hev.
      destruct Hev as [->| [->| [Hev | [->| [->| [->| Hev]]]]]]; try done.
      * rewrite forallb_forall in HdA. apply list_elem_of_In in Hev.
        specialize (HdA _ Hev). by destruct ev.
      * by apply elem_of_nil in Hev.
Qed.

(** C9.  The uniform draw [r] is taken once per batch, before the closure
    exists; with SAM both closure calls therefore take the same branch, and,
    when they mix, the second call draws its own [lam], permutation and box
    centre from the generators as the first call left them. *)
Theorem uniform_draw_shared_by_phases `{!FrameworkLaws F} (a : args) (base : string)
    (x : list (list (list (list Q)))) (labels : list Z) (w : world) (C W H : nat) :
  batch_ok x labels C W H ->
  let r := (np_rand (rng_state w)).1 in
  let N := length x in
  let dA := sample_mix a N (Z.of_nat W) (Z.of_nat H) (np_rand (rng_state w)).2 in
  let dB := sample_mix a N (Z.of_nat W) (Z.of_nat H) (m_rng dA) in
  exists lossA lossB w' t,
    train_batch a (SAM base) (x, labels) w = Some (lossB, w') /\
    trace w' = trace w ++ t /\
    t !! 1%nat = Some (NpRand r) /\
    length (filter (fun ev => is_uniform_draw ev = true) t) = 1%nat /\
    if cutmix_triggers a r then
      exists xA xB,
        t = [ZeroGrad; NpRand r]
              ++ mix_trace a N (Z.of_nat W) (Z.of_nat H) dA xA
              ++ [Backward lossA; FirstStep true]
              ++ mix_trace a N (Z.of_nat W) (Z.of_nat H) dB xB
              ++ [Backward lossB; SecondStep true]
    else
      t = [ZeroGrad; NpRand r; Forward x; Backward lossA; FirstStep true;
           Forward x; Backward lossB; SecondStep true].
Proof.
  intros Hok r N dA dB. destruct (cutmix_triggers a r) eqn:Ht.
  - destruct (train_batch_sam_mixed a base x labels w C W H Hok Ht)
      as (cutA & cutB & tbA & tbB & xA & xB & _ & _ & _ & _ & _ & _ & Hrun).
    cbv zeta in Hrun. fold r N dA dB in Hrun.
    eexists _, _, _, _. split; [exact Hrun|]. simpl.
    split; [reflexivity|]. split; [done|]. split; [done|].
    by exists xA, xB.
  - pose proof (train_batch_sam_plain a base x labels w Ht) as Hrun.
    cbv zeta in Hrun. fold r in Hrun.
    eexists _, _, _, _. split; [exact Hrun|]. simpl.
    split; [reflexivity|]. by repeat split.
Qed.

(** C10.  The region overwrite changes the captured batch tensor itself and
    the change outlives the closure call: with SAM and CutMix triggering, the
    first call overwrites, in the batch as loaded, the box [rand_bbox] gave it
    by the partner samples' pixels; the second forward pass runs on that mixed
    tensor, mixed once more over the second call's box; the pixels of the
    batch as loaded are not put back in between. *)
Theorem cutmix_mutation_persists `{!FrameworkLaws F} (a : args) (base : string)
    (x : list (list (list (list Q)))) (labels : list Z) (w : world) (C W H : nat) :
  batch_ok x labels C W H ->
  let r := (np_rand (rng_state w)).1 in
  cutmix_triggers a r = true ->
  let N := length x in
  let dA := sample_mix a N (Z.of_nat W) (Z.of_nat H) (np_rand (rng_state w)).2 in
  let dB := sample_mix a N (Z.of_nat W) (Z.of_nat H) (m_rng dA) in
  exists cutA cutB xA xB loss w',
    np_int_scaled_sqrt (Z.of_nat H) (1 - m_lam dA) = Some cutA /\
    np_int_scaled_sqrt (Z.of_nat H) (1 - m_lam dB) = Some cutB /\
    let bA := box_of (Z.of_nat W) (Z.of_nat H) cutA (m_cy dA) in
    let bB := box_of (Z.of_nat W) (Z.of_nat H) cutB (m_cy dB) in
    cutmix_assign x (m_perm dA) bA = Some xA /\
    cutmix_assign xA (m_perm dB) bB = Some xB /\
    train_batch a (SAM base) (x, labels) w = Some (loss, w') /\
    filter (fun ev => is_forward ev = true) (drop (length (trace w)) (trace w'))
      = [Forward xA; Forward xB] /\
    inputs w' = xB /\
    (forall n k c i j, m_perm dA !! n = Some k ->
       tget xA n c i j = if in_box bA i j then tget x k c i j else tget x n c i j) /\
    (forall n k c i j, m_perm dB !! n = Some k ->
       tget xB n c i j = if in_box bB i j then tget xA k c i j else tget xA n c i j).
Proof.
  intros Hok r Ht N dA dB.
  destruct (train_batch_sam_mixed a base x labels w C W H Hok Ht)
    as (cutA & cutB & tbA & tbB & xA & xB & HcA & HcB & _ & _ & HxA & HxB & Hrun).
  cbv zeta in HcA, HcB, HxA, HxB, Hrun. fold r N dA dB in HcA, HcB, HxA, HxB, Hrun.
  eexists cutA, cutB, xA, xB, _, _.
  split; [exact HcA|]. split; [exact HcB|]. intros bA bB.
  split; [exact HxA|]. split; [exact HxB|].
  split; [exact Hrun|].
  split; [simpl; by rewrite drop_app_length|]. split; [done|].
  pose proof Hok as (_ & _ & _ & _ & Hr0' & _).
  destruct (batch_ok_cutmix_assign _ _ _ _ _ _ _ _ Hok HxA) as (_ & _ & _ & _ & Hr & _).
  split.
  - intros n k c i j Hn.
    exact (tget_cutmix_assign x xA _ _ C W H Hr0' HxA n k c i j Hn).
  - intros n k c i j Hn.
    exact (tget_cutmix_assign xA xB _ _ C W H Hr HxB n k c i j Hn).
Qed.

(** C6.  Every epoch writes the "last" checkpoint; it writes the "best"
    checkpoint, and with it the confusion matrix, exactly when the epoch's F1
    is strictly above the running best.  For the F1 sequence
    [0.5, 0.3, 0.7, 0.6] from a best F1 of 0, "best" is written at epochs 0
    and 2 only and "last" at every epoch.  Both scripts. *)
Theorem checkpoint_policy :
  (forall st f1 vl,
     let arts := (checkpoint st f1 vl).2 in
     LastPth ∈ arts /\
     (BestPth ∈ arts <-> (best_f1_score st < f1)%Q) /\
     (ConfusionMatrix ∈ arts <-> (best_f1_score st < f1)%Q)) /\
  (forall st f1 vl va,
     let arts := (baseline_checkpoint st f1 vl va).2 in
     LastPth ∈ arts /\
     (BestPth ∈ arts <-> (best_val_f1_score st < f1)%Q) /\
     (ConfusionMatrix ∈ arts <-> (best_val_f1_score st < f1)%Q)) /\
  (forall l0 l1 l2 l3,
     (checkpoint_run best_init
        [(5 # 10, l0); (3 # 10, l1); (7 # 10, l2); (6 # 10, l3)]%Q).*2
     = [[BestPth; ConfusionMatrix; LastPth]; [LastPth];
        [BestPth; ConfusionMatrix; LastPth]; [LastPth]]) /\
  (forall l0 l1 l2 l3 a0 a1 a2 a3,
     (baseline_checkpoint_run baseline_best_init
        [(5 # 10, l0, a0); (3 # 10, l1, a1); (7 # 10, l2, a2); (6 # 10, l3, a3)]%Q).*2
     = [[BestPth; ConfusionMatrix; ClassificationResult; LastPth]; [LastPth];
        [BestPth; ConfusionMatrix; ClassificationResult; LastPth]; [LastPth]]).
Proof.
  split; [|split; [|split]].
  - intros st f1 vl arts. subst arts. unfold checkpoint.
    destruct (Qlt_bool (best_f1_score st) f1) eqn:E; simpl.
    + apply Qlt_bool_true in E.
      split; [repeat constructor|]. split; (split; [done|intros _; repeat constructor]).
    + split; [repeat constructor|].
      split; (split; [intros Hin; apply list_elem_of_singleton in Hin; done|]);
        intros Hlt; apply Qlt_bool_true in Hlt; congruence.
  - intros st f1 vl va arts. subst arts. unfold baseline_checkpoint.
    destruct (Qlt_bool (best_val_f1_score st) f1) eqn:E; simpl.
    + apply Qlt_bool_true in E.
      split; [repeat constructor|]. split; (split; [done|intros _; repeat constructor]).
    + split; [repeat constructor|].
      split; (split; [intros Hin; apply list_elem_of_singleton in Hin; done|]);
        intros Hlt; apply Qlt_bool_true in Hlt; congruence.
  - intros l0 l1 l2 l3. reflexivity.
  - intros l0 l1 l2 l3 a0 a1 a2 a3. reflexivity.
Qed.

(** C7.  The running bests start at [best_val_loss = +inf] and best F1 = 0;
    they change once per epoch, at its end, by the policy; along every
    sequence of epochs the best F1 never decreases and [best_val_loss], the
    [min] of itself and the epoch's validation loss, never increases; the
    validation losses have no say in which files are written.  Both
    scripts. *)
Theorem best_state_monotone :
  (best_val_loss best_init = Inf /\ best_f1_score best_init = 0%Q /\
   b_best_val_loss baseline_best_init = Inf /\
   best_val_f1_score baseline_best_init = 0%Q) /\
  (forall st f1 vl,
     best_val_loss (checkpoint st f1 vl).1 = py_min (best_val_loss st) vl /\
     float_inf_le (best_val_loss (checkpoint st f1 vl).1) (best_val_loss st) /\
     (best_f1_score st <= best_f1_score (checkpoint st f1 vl).1)%Q) /\
  (forall st f1 vl va,
     b_best_val_loss (baseline_checkpoint st f1 vl va).1
       = py_min (b_best_val_loss st) vl /\
     float_inf_le (b_best_val_loss (baseline_checkpoint st f1 vl va).1)
       (b_best_val_loss st) /\
     (best_val_f1_score st
        <= best_val_f1_score (baseline_checkpoint st f1 vl va).1)%Q) /\
  (forall st epochs (i j : nat) x y,
     (i <= j)%nat ->
     (st :: (checkpoint_run st epochs).*1) !! i = Some x ->
     (st :: (checkpoint_run st epochs).*1) !! j = Some y ->
     (best_f1_score x <= best_f1_score y)%Q /\
     float_inf_le (best_val_loss y) (best_val_loss x)) /\
  (forall st epochs (i j : nat) x y,
     (i <= j)%nat ->
     (st :: (baseline_checkpoint_run st epochs).*1) !! i = Some x ->
     (st :: (baseline_checkpoint_run st epochs).*1) !! j = Some y ->
     (best_val_f1_score x <= best_val_f1_score y)%Q /\
     float_inf_le (b_best_val_loss y) (b_best_val_loss x)) /\
  (forall st st' f1 vl vl',
     best_f1_score st = best_f1_score st' ->
     (checkpoint st f1 vl).2 = (checkpoint st' f1 vl').2) /\
  (forall st st' f1 vl vl' va,
     best_val_f1_score st = best_val_f1_score st' ->
     (baseline_checkpoint st f1 vl va).2 = (baseline_checkpoint st' f1 vl' va).2) /\
  (forall a opt train_loader val_loader n st (w w' : world) r,
     epoch a opt train_loader val_loader n st w = Some (r, w') ->
     exists f1 vl, r = checkpoint st f1 vl) /\
  (forall train_loader val_loader n st (w w' : world) r,
     baseline_epoch train_loader val_loader n st w = Some (r, w') ->
     exists f1 vl va, r = baseline_checkpoint st f1 vl va) /\
  (forall a loaders n (w w' : world) h,
     train a loaders n w = Some (h, w') ->
     exists ms, length ms = length loaders /\ h = checkpoint_run best_init ms).
Proof.
  split; [done|].
  split.
  { intros st f1 vl. rewrite checkpoint_best_val_loss.
    split; [done|]. split; [apply py_min_le|apply checkpoint_best_f1]. }
  split.
  { intros st f1 vl va. rewrite baseline_checkpoint_best_val_loss.
    split; [done|]. split; [apply py_min_le|apply baseline_checkpoint_best_f1]. }
  split.
  { intros st epochs i j x y. apply checkpoint_run_monotone. }
  split.
  { intros st epochs i j x y. apply baseline_checkpoint_run_monotone. }
  split.
  { intros st st' f1 vl vl' Heq. unfold checkpoint. rewrite Heq.
    by destruct (Qlt_bool (best_f1_score st') f1). }
  split.
  { intros st st' f1 vl vl' va Heq. unfold baseline_checkpoint. rewrite Heq.
    by destruct (Qlt_bool (best_val_f1_score st') f1). }
  split.
  { intros a opt tl vl n st w w' r. apply epoch_checkpoint. }
  split.
  { intros tl vl n st w w' r. apply baseline_epoch_checkpoint. }
  intros a loaders n w w' h. apply train_epochs_checkpoint_run.
Qed.

(** C8, as the code has it.  For every validation pass over a non-empty
    batch sequence, both scripts return as mean loss the sum of the per-batch
    losses over the batch count and as accuracy the number of predictions
    (argmax over the logits) equal to the label, summed over the batches,
    over the validation-set size, and build the figure from the first batch
    only.  The CutMix/SAM script's F1 is the sum of the per-batch macro F1
    scores over the batch count; the baseline's F1 is the macro F1 of the
    epoch's concatenated labels and predictions. *)
Theorem validation_aggregates
    (val_loader : list (list (list (list (list Q))) * list Z)) (n : Z) (w : world) :
  val_loader <> [] ->
  exists outs w0 w' v bv,
    call ModelEval w = Some (tt, w0) /\
    val_forwards val_loader w0 = Some (outs, w') /\
    validate val_loader n w = Some (v, w') /\
    baseline_validate val_loader n w = Some (bv, w') /\
    let count := inject_Z (Z.of_nat (length val_loader)) in
    let losses := batch_losses val_loader outs in
    let matches := batch_matches val_loader outs in
    (val_loss v == np_sum losses / count)%Q /\
    (val_acc v == inject_Z (np_sum_int matches) / inject_Z n)%Q /\
    (val_f1 v == np_sum (batch_f1s val_loader outs) / count)%Q /\
    res_figure v = first_figure val_loader outs /\
    (val_loss bv == np_sum losses / count)%Q /\
    (val_acc bv == inject_Z (np_sum_int matches) / inject_Z n)%Q /\
    val_f1 bv = f1_score_macro (concat val_loader.*2) (concat (map argmax outs)) /\
    res_figure bv = first_figure val_loader outs.
Proof.
  intros Hne.
  set (w0 := World (rng_state w) (torch_step ModelEval (net_state w)) (inputs w)
               (trace w ++ [ModelEval])).
  destruct (val_loop_run val_loader val_init w0)
    as (outs & w' & Hfw & Hlen & Hloop & Hbase).
  simpl in Hloop, Hbase.
  eexists outs, w0, w', _, _.
  split; [reflexivity|]. split; [exact Hfw|].
  split.
  { unfold validate. run. fold w0. rewrite Hloop. simpl.
    by rewrite decide_False. }
  split.
  { unfold baseline_validate. run. fold w0. rewrite Hbase. simpl.
    by rewrite decide_False. }
  simpl. repeat split; try reflexivity.
  rewrite fold_left_Qplus. apply Qdiv_comp; [ring|reflexivity].
Qed.

End Specification.

(** * Concrete runs *)

Ltac qcmp := unfold Qle, Qlt; simpl; lia.

Lemma ex_batch_ok (g : list Q) : batch_ok (inputs (ex_loaded g)) ex_labels 1 2 4.
Proof.
  unfold batch_ok. simpl. repeat split; try lia; try done.
  unfold rectangular, rect_sample, rect_channel. repeat constructor.
Defined.

Lemma closure_cutmix_spec_witness :
  batch_ok (inputs (ex_loaded [0; 1; 1; 2]%Q)) ex_labels 1 2 4 /\
  exists loss w',
    closure ex_args ex_labels (1 # 4) (ex_loaded [0; 1; 1; 2]%Q) = Some (loss, w').
Proof.
  split; [apply ex_batch_ok|].
  destruct (closure_cutmix_spec ex_args ex_labels (1 # 4) (ex_loaded [0; 1; 1; 2]%Q)
              1 2 4 (ex_batch_ok _)) as [Hmix _].
  destruct Hmix as (x1 & y1 & x2 & y2 & tb & x' & w' & draws & _ & _ & _ & _ & _ & Hrun & _).
  { split; qcmp. }
  eexists _, w'. exact Hrun.
Defined.

Lemma sam_two_phase_protocol_witness :
  batch_ok ex_x ex_labels 1 2 4 /\
  exists loss w',
    train_batch ex_args (make_optimizer ex_args) (ex_x, ex_labels) (ex_w ex_tape)
      = Some (loss, w').
Proof.
  split; [apply (ex_batch_ok [])|].
  destruct (sam_two_phase_protocol ex_args ex_x ex_labels (ex_w ex_tape) 1 2 4
              (ex_batch_ok []))
    as (lossA & xA & gA & drawsA & _ & _ & _ & Hsam & _).
  destruct (Hsam eq_refl) as (lossB & xB & gB & drawsB & _ & _ & _ & Hrun & _).
  eexists _, _. exact Hrun.
Defined.

Lemma closure_without_cutmix_witness :
  ((0 <= 1 # 4)%Q /\ (1 # 4 < 1)%Q) /\
  ((beta plain_args == 0)%Q \/ (cutmix_prob plain_args == 0)%Q) /\
  closure plain_args ex_labels (1 # 4) (ex_loaded []) = baseline_loss ex_labels (ex_loaded []).
Proof.
  assert (Hr : (0 <= 1 # 4)%Q /\ (1 # 4 < 1)%Q) by (split; qcmp).
  assert (Hoff : (beta plain_args == 0)%Q \/ (cutmix_prob plain_args == 0)%Q)
    by (left; reflexivity).
  split; [exact Hr|]. split; [exact Hoff|].
  exact (proj1 (closure_without_cutmix plain_args ex_labels (1 # 4) (ex_loaded []) Hr Hoff)).
Defined.


Lemma recomputed_lam_unit_interval_witness :
  rand_bbox (2, 1, 2, 4) (3 # 4) (ex_w [1; 3]%Q)
    = Some ((0, 2, 2, 4), World [] 0%nat [] [NpRandint 2 1; NpRandint 4 3]) /\
  (0 <= recomputed_lam (0, 2, 2, 4)%Z (2, 1, 2, 4)%Z)%Q /\
  (recomputed_lam (0, 2, 2, 4)%Z (2, 1, 2, 4)%Z <= 1)%Q.
Proof.
  assert (Hrun : rand_bbox (2, 1, 2, 4) (3 # 4) (ex_w [1; 3]%Q)
    = Some ((0, 2, 2, 4), World [] 0%nat [] [NpRandint 2 1; NpRandint 4 3]))
    by reflexivity.
  split; [exact Hrun|].
  destruct (recomputed_lam_unit_interval _ _ _ _ _ _ _ _ _ _ _ Hrun)
    as (_ & H0 & H1 & _).
  auto.
Defined.

Lemma validation_aggregates_witness :
  ex_val_loader <> [] /\
  exists v w', validate ex_val_loader 4 (ex_w []) = Some (v, w').
Proof.
  assert (Hne : ex_val_loader <> []) by discriminate.
  split; [exact Hne|].
  destruct (validation_aggregates ex_val_loader 4 (ex_w []) Hne)
    as (outs & w0 & w' & v & bv & _ & _ & Hv & _).
  exists v, w'. exact Hv.
Defined.

Lemma uniform_draw_shared_by_phases_witness :
  batch_ok ex_x ex_labels 1 2 4 /\
  exists loss w' t,
    train_batch ex_args (SAM "SGD") (ex_x, ex_labels) (ex_w ex_tape) = Some (loss, w') /\
    trace w' = trace (ex_w ex_tape) ++ t /\
    length (filter (fun ev => is_uniform_draw ev = true) t) = 1%nat.
Proof.
  split; [apply (ex_batch_ok [])|].
  destruct (uniform_draw_shared_by_phases ex_args "SGD" ex_x ex_labels (ex_w ex_tape)
              1 2 4 (ex_batch_ok []))
    as (lossA & lossB & w' & t & Hrun & Ht & _ & Hone & _).
  exists lossB, w', t. auto.
Defined.

Lemma cutmix_mutation_persists_witness :
  batch_ok ex_x ex_labels 1 2 4 /\
  cutmix_triggers ex_args (np_rand (rng_state (ex_w ex_tape))).1 = true /\
  exists xA xB loss w',
    train_batch ex_args (SAM "SGD") (ex_x, ex_labels) (ex_w ex_tape) = Some (loss, w') /\
    filter (fun ev => is_forward ev = true) (trace w') = [Forward xA; Forward xB] /\
    inputs w' = xB.
Proof.
  assert (Ht : cutmix_triggers ex_args (np_rand (rng_state (ex_w ex_tape))).1 = true)
    by reflexivity.
  split; [apply (ex_batch_ok [])|]. split; [exact Ht|].
  destruct (cutmix_mutation_persists ex_args "SGD" ex_x ex_labels (ex_w ex_tape)
              1 2 4 (ex_batch_ok []) Ht)
    as (cutA & cutB & xA & xB & loss & w' & _ & _ & _ & _ & Hrun & Hfw & Hin & _).
  exists xA, xB, loss, w'. auto.
Defined.

(** On the tape above the second closure call draws [lam = 3/4] where the
    first drew 0, and its forward pass sees the batch the first call mixed:
    the first call swaps the two samples whole, the second swaps columns 2-3
    back, and the batch as loaded is never seen again. *)
Example sam_cutmix_run :
  (fun r => (filter (fun ev => is_draw ev = true) (trace r.2), inputs r.2))
    <$> train_batch ex_args (SAM "SGD") (ex_x, ex_labels) (ex_w ex_tape)
  = Some ([NpRand (1 # 4);
           NpBeta 1 1 0; Randperm 2 [1; 0]%nat; NpRandint 2 1; NpRandint 4 2;
           NpBeta 1 1 (3 # 4); Randperm 2 [1; 0]%nat; NpRandint 2 1; NpRandint 4 3],
          [ [ [ [10; 20; 3; 4]; [50; 60; 7; 8] ] ];
            [ [ [1; 2; 30; 40]; [5; 6; 70; 80] ] ] ]%Q).
Proof. vm_compute. reflexivity. Qed.

Example sam_cutmix_not_restored :
  inputs <$> (snd <$> train_batch ex_args (SAM "SGD") (ex_x, ex_labels) (ex_w ex_tape))
  <> cutmix_assign ex_x [1; 0]%nat (0, 2, 2, 4)%Z.
Proof. vm_compute. discriminate. Qed.

(** ** Rounding in the cut height *)

(** The rounded exact difference is the float subtraction [1. - lam]. *)
Example double_difference_at_0_64 :
  double_of_Q (1 - ex_lam_064)
  = SFsub prec emax (double_of_Z 1) (double_of_Q ex_lam_064).
Proof. vm_compute. reflexivity. Qed.

(** At [lam = 0.64] and [H = 10] the double [H * np.sqrt(1. - lam)] is 6.0,
    one above the floor of the exact product; with the centre row 5 the box
    spans rows 2 to 8. *)
Example cut_height_at_0_64 :
  scaled_sqrt 10 (1 - ex_lam_064) = S754_finite false 6755399441055744 (-50) /\
  np_int_scaled_sqrt 10 (1 - ex_lam_064) = Some 6 /\
  Z.sqrt (Qfloor (inject_Z (10 * 10) * (1 - ex_lam_064))) = 5 /\
  fst <$> rand_bbox (1, 1, 1, 10) ex_lam_064 (ex_w [0; 5]%Q) = Some (0, 2, 1, 8).
Proof. repeat split; vm_compute; reflexivity. Qed.

(** At [lam = 2^-60] the double [1. - lam] is 1.0: the cut takes all four
    rows. *)
Example cut_height_at_tiny_lam :
  np_int_scaled_sqrt 4 (1 - ex_lam_tiny) = Some 4 /\
  fst <$> rand_bbox (1, 1, 2, 4) ex_lam_tiny (ex_w [0; 2]%Q) = Some (0, 0, 2, 4).
Proof. repeat split; vm_compute; reflexivity. Qed.

(** C8 as stated fails on the baseline: its F1 is not the mean of the
    per-batch macro F1 scores. *)
Lemma baseline_validate_f1_not_batch_mean :
  exists bv outs w0 w',
    call ModelEval (ex_w []) = Some (tt, w0) /\
    val_forwards ex_val_loader w0 = Some (outs, w') /\
    baseline_validate ex_val_loader 4 (ex_w []) = Some (bv, w') /\
    ~ (val_f1 bv == np_sum (batch_f1s ex_val_loader outs)
                    / inject_Z (Z.of_nat (length ex_val_loader)))%Q.
Proof.
  eexists _, _, _, _. split; [reflexivity|]. split; [cbv; reflexivity|].
  split; [cbv; reflexivity|]. vm_compute. discriminate.
Qed.

(** * Further properties of the scripts *)

(** ** [rand_bbox] *)

Lemma rand_bbox_returns `{F : Framework} (w w' : world) (N C W H : Z) (lam : Q)
    (b : Z * Z * Z * Z) :
  rand_bbox (N, C, W, H) lam w = Some (b, w') ->
  let cx := np_randint W (rng_state w) in
  let cy := np_randint H cx.2 in
  exists cut_h,
    np_int_scaled_sqrt H (1 - lam) = Some cut_h /\ 0 <= cut_h /\ 0 < W /\ 0 < H /\
    b = box_of W H cut_h cy.1 /\
    w' = World cy.2 (net_state w) (inputs w)
           (trace w ++ [NpRandint W cx.1; NpRandint H cy.1]).
Proof.
  intros Hrun cx cy.
  destruct (rand_bbox_inv _ _ _ _ _ _ _ _ Hrun) as (HW & HH & Hlam & _).
  destruct (rand_bbox_run w N C W H lam HW HH Hlam) as (cut_h & Hcut & Hc0 & _ & Hrun').
  cbv zeta in Hrun'. rewrite Hrun in Hrun'. injection Hrun' as -> ->.
  exists cut_h. by repeat split.
Qed.

Lemma count_in_range (lo hi : Z) (n : nat) :
  0 <= lo -> lo <= hi ->
  Z.of_nat (length (filter (fun j => in_range lo hi j = true) (seq 0 n)))
    = Z.min hi (Z.of_nat n) - Z.min lo (Z.of_nat n).
Proof.
  intros Hlo Hhi. induction n as [|n IH].
  - simpl. lia.
  - rewrite seq_S, filter_app, length_app, Nat2Z.inj_add, IH. simpl.
    unfold filter, list_filter. unfold in_range at 1.
    case_decide as Hin; simpl.
    + apply andb_true_iff in Hin as [H1 H2]. lia.
    + apply not_true_is_false, andb_false_iff in Hin. lia.
Qed.

Lemma count_filter_prod {A B} (f : A -> bool) (g : B -> bool) (l : list A) (k : list B) :
  length (filter (fun p => f p.1 && g p.2 = true) (list_prod l k))
    = (length (filter (fun a => f a = true) l) * length (filter (fun b => g b = true) k))%nat.
Proof.
  induction l as [|a l IH]; [done|].
  simpl. rewrite filter_app, length_app, IH.
  assert (Hrow : length (filter (fun p : A * B => f p.1 && g p.2 = true)
                           (map (fun y => (a, y)) k))
                 = if f a then length (filter (fun b => g b = true) k) else 0%nat).
  { clear IH. induction k as [|b k IHk]; [by destruct (f a)|].
    simpl. rewrite !filter_cons. simpl.
    destruct (f a) eqn:Ef, (g b) eqn:Eg; simpl in *;
      repeat case_decide; try done; simpl; by rewrite ?IHk. }
  rewrite Hrow, filter_cons.
  destruct (f a) eqn:Ef; case_decide; try done; simpl; lia.
Qed.

Section BoundingBox.
Context {F : Framework}.

(** X1.  [rand_bbox] raises exactly when a spatial extent is not positive
    ([np.random.randint] refuses the bound) or [lam > 1] (the square root is
    not a number); otherwise it returns. *)
Theorem rand_bbox_raises_iff (w : world) (N C W H : Z) (lam : Q) :
  rand_bbox (N, C, W, H) lam w = None <-> W <= 0 \/ H <= 0 \/ (1 < lam)%Q.
Proof.
  split.
  - intros Hnone.
    destruct (Z_lt_le_dec 0 W) as [HW|HW]; [|by left].
    destruct (Z_lt_le_dec 0 H) as [HH|HH]; [|by right; left].
    destruct (Qlt_le_dec 1 lam) as [Hlam|Hlam]; [by right; right|].
    destruct (rand_bbox_run w N C W H lam HW HH Hlam) as (c & _ & _ & _ & Hrun).
    cbv zeta in Hrun. congruence.
  - intros Hbad. destruct (rand_bbox (N, C, W, H) lam w) as [[b w']|] eqn:Hrun; [|done].
    apply rand_bbox_inv in Hrun as (HW & HH & Hlam & _). exfalso.
    destruct Hbad as [?|[?|Hl]]; [lia|lia|].
    exact (Qlt_not_le _ _ Hl Hlam).
Qed.

(** X2.  The band a returned box cuts is at most [2 * (cut_h // 2)] rows
    high, hence at most [cut_h], with equality to [2 * (cut_h // 2)] when the
    clip does not bite. *)
Theorem rand_bbox_band_height (w w' : world) (N C W H : Z) (lam : Q)
    (x1 y1 x2 y2 : Z) :
  rand_bbox (N, C, W, H) lam w = Some ((x1, y1, x2, y2), w') ->
  let cy := (np_randint H (np_randint W (rng_state w)).2).1 in
  exists cut_h,
    np_int_scaled_sqrt H (1 - lam) = Some cut_h /\
    y2 - y1 <= 2 * (cut_h / 2) /\ 2 * (cut_h / 2) <= cut_h /\
    (0 <= cy - cut_h / 2 -> cy + cut_h / 2 <= H -> y2 - y1 = 2 * (cut_h / 2)).
Proof.
  intros Hrun cy.
  destruct (rand_bbox_returns _ _ _ _ _ _ _ _ Hrun) as (cut_h & Hcut & Hc0 & HW & HH & Hb & _).
  fold cy in Hb. unfold box_of in Hb. injection Hb as -> -> -> ->.
  exists cut_h. split; [done|].
  assert (Hhalf : 0 <= cut_h / 2) by (apply Z.div_pos; lia).
  assert (Hle : 2 * (cut_h / 2) <= cut_h) by (apply Z.mul_div_le; lia).
  assert (Hband : np_clip (cy + cut_h / 2) 0 H - np_clip (cy - cut_h / 2) 0 H
                  <= 2 * (cut_h / 2)) by (unfold np_clip; lia).
  split; [done|]. split; [done|]. unfold np_clip; lia.
Qed.

(** X3.  A returning [rand_bbox] call makes exactly two [randint] draws, with
    bounds [W] and then [H], and touches neither the batch tensor nor the
    network; the first draw ([cx]) has no influence on the box. *)
Theorem rand_bbox_frame (w w' : world) (N C W H : Z) (lam : Q) (b : Z * Z * Z * Z) :
  rand_bbox (N, C, W, H) lam w = Some (b, w') ->
  exists cx cy cut_h,
    trace w' = trace w ++ [NpRandint W cx; NpRandint H cy] /\
    inputs w' = inputs w /\ net_state w' = net_state w /\
    np_int_scaled_sqrt H (1 - lam) = Some cut_h /\
    b = box_of W H cut_h cy.
Proof.
  intros Hrun.
  destruct (rand_bbox_returns _ _ _ _ _ _ _ _ Hrun) as (cut_h & Hcut & _ & _ & _ & Hb & ->).
  eexists _, _, cut_h. simpl. by repeat split.
Qed.

(** X4.  The ratio recomputed at line 173 is exactly the share of the
    [W x H] pixel positions that lie outside the returned box. *)
Theorem recomputed_lam_counts_positions (w w' : world) (N C : Z) (W H : nat) (lam : Q)
    (b : Z * Z * Z * Z) :
  rand_bbox (N, C, Z.of_nat W, Z.of_nat H) lam w = Some (b, w') ->
  recomputed_lam b (N, C, Z.of_nat W, Z.of_nat H)
    = (1 - inject_Z (Z.of_nat (count_in_box b W H))
           / inject_Z (Z.of_nat H * Z.of_nat W))%Q.
Proof.
  intros Hrun.
  destruct (rand_bbox_returns _ _ _ _ _ _ _ _ Hrun) as (cut_h & _ & Hc0 & HW & HH & -> & _).
  set (cy := (np_randint (Z.of_nat H) (np_randint (Z.of_nat W) (rng_state w)).2).1).
  pose proof (box_of_bounds (Z.of_nat W) (Z.of_nat H) cut_h cy ltac:(lia) Hc0) as Hb.
  unfold box_of in *. destruct Hb as (_ & _ & H1 & H2 & H3).
  unfold recomputed_lam, count_in_box, in_box.
  rewrite count_filter_prod, Nat2Z.inj_mul.
  rewrite !count_in_range by lia.
  rewrite Z.min_id, (Z.min_l 0 (Z.of_nat W)) by lia.
  rewrite (Z.min_l (np_clip (cy + cut_h / 2) 0 (Z.of_nat H))) by lia.
  rewrite (Z.min_l (np_clip (cy - cut_h / 2) 0 (Z.of_nat H))) by lia.
  reflexivity.
Qed.

End BoundingBox.

Lemma rand_bbox_band_height_witness :
  exists cut_h,
    np_int_scaled_sqrt 4 (1 - (3 # 4)) = Some cut_h /\ 4 - 2 <= 2 * (cut_h / 2).
Proof.
  destruct (rand_bbox_band_height (ex_w [1; 3]%Q)
              ex_bbox_end
              2 1 2 4 (3 # 4) 0 2 2 4 eq_refl)
    as (cut_h & Hcut & Hband & _).
  exists cut_h. split; [exact Hcut|exact Hband].
Defined.

Lemma rand_bbox_frame_witness :
  exists cx cy,
    trace ex_bbox_end
      = trace (ex_w [1; 3]%Q) ++ [NpRandint 2 cx; NpRandint 4 cy].
Proof.
  destruct (rand_bbox_frame (ex_w [1; 3]%Q)
              ex_bbox_end
              2 1 2 4 (3 # 4) (0, 2, 2, 4) eq_refl)
    as (cx & cy & cut_h & Ht & _).
  exists cx, cy. exact Ht.
Defined.

Lemma recomputed_lam_counts_positions_witness :
  recomputed_lam (0, 2, 2, 4) (2, 1, Z.of_nat 2, Z.of_nat 4)
    = (1 - inject_Z (Z.of_nat (count_in_box (0, 2, 2, 4)%Z 2 4))
           / inject_Z (Z.of_nat 4 * Z.of_nat 2))%Q.
Proof.
  exact (recomputed_lam_counts_positions (ex_w [1; 3]%Q)
           ex_bbox_end
           2 1 2 4 (3 # 4) (0, 2, 2, 4) eq_refl).
Defined.

(** ** The region assignment *)

Lemma in_range_empty (lo hi : Z) (k : nat) : hi <= lo -> in_range lo hi k = false.
Proof. intros H. unfold in_range. apply andb_false_iff. lia. Qed.

Lemma imap_id {A} (f : nat -> A -> A) (l : list A) :
  (forall i x, l !! i = Some x -> f i x = x) -> imap f l = l.
Proof.
  intros Hf. apply list_eq. intros i. rewrite list_lookup_imap.
  destruct (l !! i) as [x|] eqn:E; simpl; [|done]. by rewrite (Hf i x E).
Qed.

Lemma assign_row_fixed (bby1 bby2 : Z) (dst src : list Q) :
  bby2 <= bby1 \/ src = dst -> assign_row bby1 bby2 dst src = dst.
Proof.
  intros Hfix. unfold assign_row. apply imap_id. intros j v Hj.
  destruct Hfix as [He| ->].
  - by rewrite in_range_empty.
  - rewrite Hj. simpl. by destruct (in_range bby1 bby2 j).
Qed.

Lemma assign_channel_fixed (b : Z * Z * Z * Z) (dst src : list (list Q)) :
  (let '(x1, y1, x2, y2) := b in y2 <= y1 \/ x2 <= x1) \/ src = dst ->
  assign_channel b dst src = dst.
Proof.
  destruct b as [[[x1 y1] x2] y2]. intros Hfix. unfold assign_channel.
  apply imap_id. intros i row Hi.
  destruct (in_range x1 x2 i) eqn:Hin; [|done].
  apply assign_row_fixed. destruct Hfix as [[He|He]| ->].
  - by left.
  - by rewrite in_range_empty in Hin.
  - right. by rewrite Hi.
Qed.

Lemma assign_sample_fixed (b : Z * Z * Z * Z) (dst src : list (list (list Q))) :
  (let '(x1, y1, x2, y2) := b in y2 <= y1 \/ x2 <= x1) \/ src = dst ->
  assign_sample b dst src = dst.
Proof.
  intros Hfix. unfold assign_sample. apply imap_id. intros c ch Hc.
  apply assign_channel_fixed. destruct Hfix as [He| ->]; [by left|].
  right. by rewrite Hc.
Qed.

Lemma index_select_fmap (labels : list Z) (idx : list nat) (tb : list Z) :
  index_select labels idx = Some tb ->
  tb = (fun k => default 0 (labels !! k)) <$> idx.
Proof.
  unfold index_select. intros H%mapM_Some.
  induction H as [|k y idx tb Hk _ IH]; [done|].
  simpl. rewrite Hk. simpl. by f_equal.
Qed.

Lemma fmap_lookup_seq (labels : list Z) :
  (fun k => default 0 (labels !! k)) <$> seq 0 (length labels) = labels.
Proof.
  apply list_eq. intros i. rewrite list_lookup_fmap.
  destruct (labels !! i) as [y|] eqn:E.
  - rewrite lookup_seq_lt by (by eapply lookup_lt_Some). simpl. by rewrite E.
  - rewrite lookup_seq_ge; [done|]. by apply lookup_ge_None.
Qed.

Lemma index_select_seq {A} (t : list A) : index_select t (seq 0 (length t)) = Some t.
Proof.
  unfold index_select. apply mapM_Some.
  apply Forall2_same_length_lookup. split; [by rewrite length_seq|].
  intros i k y Hk Hy. apply lookup_seq in Hk as [-> _]. done.
Qed.

(** X5.  A box with no rows or no columns assigns nothing: the batch tensor
    comes back as it was, whatever the permutation. *)
Theorem cutmix_assign_empty_box (t : list (list (list (list Q)))) (idx : list nat)
    (x1 y1 x2 y2 : Z) :
  Permutation idx (seq 0 (length t)) ->
  y2 <= y1 \/ x2 <= x1 ->
  cutmix_assign t idx (x1, y1, x2, y2) = Some t.
Proof.
  intros Hp He.
  destruct (index_select_perm t idx Hp) as (src & Hsrc & Hlen & _).
  unfold cutmix_assign. rewrite Hsrc. simpl. rewrite decide_True by done.
  f_equal. apply list_eq. intros n. rewrite lookup_zip_with.
  destruct (t !! n) as [s|] eqn:Hs; simpl; [|done].
  destruct (lookup_same_length t src n) as [p Hp']; [done|eauto|].
  rewrite Hp'. simpl. f_equal. apply assign_sample_fixed. by left.
Qed.

(** X6.  A sample the permutation sends to itself is left as it was; under
    the identity permutation the whole batch is. *)
Theorem cutmix_assign_fixed_sample (t t' : list (list (list (list Q)))) (idx : list nat)
    (b : Z * Z * Z * Z) :
  cutmix_assign t idx b = Some t' ->
  (forall n, idx !! n = Some n -> t' !! n = t !! n) /\
  (idx = seq 0 (length t) -> t' = t).
Proof.
  unfold cutmix_assign.
  destruct (index_select t idx) as [src|] eqn:Hsrc; [|done]. simpl.
  case_decide as Hlen; [|done]. intros [= <-].
  apply mapM_Some in Hsrc.
  assert (Hfix : forall n, idx !! n = Some n ->
            zip_with (assign_sample b) t src !! n = t !! n).
  { intros n Hn.
    destruct (Forall2_lookup_l _ _ _ _ _ Hsrc Hn) as (p & Hp & Hk).
    rewrite lookup_zip_with, Hk, Hp. simpl. f_equal.
    apply assign_sample_fixed. by right. }
  split; [exact Hfix|].
  intros ->. apply list_eq. intros n.
  destruct (t !! n) as [s|] eqn:Hs.
  - rewrite <- Hs. apply Hfix. apply lookup_seq_lt. by eapply lookup_lt_Some.
  - apply lookup_ge_None. rewrite length_zip_with. apply lookup_ge_None in Hs. lia.
Qed.

(** X7.  The partner labels [labels[rand_index]] are the batch labels in
    another order: no label is lost or invented. *)
Theorem partner_labels_permutation (labels : list Z) (idx : list nat) (tb : list Z) :
  Permutation idx (seq 0 (length labels)) ->
  index_select labels idx = Some tb ->
  Permutation tb labels.
Proof.
  intros Hp Htb. rewrite (index_select_fmap _ _ _ Htb).
  transitivity ((fun k => default 0 (labels !! k)) <$> seq 0 (length labels)).
  - by apply fmap_Permutation.
  - by rewrite fmap_lookup_seq.
Qed.

(** X8.  The overwrite moves pixels between samples and never creates or
    drops one: at every position [(c, i, j)] the pixels of the batch after
    the assignment are those before it, in another order. *)
Theorem cutmix_assign_conserves_pixels (t t' : list (list (list (list Q))))
    (idx : list nat) (b : Z * Z * Z * Z) (C W H : nat) (c i j : nat) :
  rectangular t C W H ->
  Permutation idx (seq 0 (length t)) ->
  cutmix_assign t idx b = Some t' ->
  Permutation ((fun n => tget t' n c i j) <$> seq 0 (length t))
              ((fun n => tget t n c i j) <$> seq 0 (length t)).
Proof.
  intros Hr Hp Ht'.
  pose proof (tget_cutmix_assign t t' idx b C W H Hr Ht') as Hget.
  assert (Hlen : length idx = length t).
  { apply Permutation_length in Hp. by rewrite length_seq in Hp. }
  destruct (in_box b i j) eqn:Hin.
  - assert (Heq : (fun n => tget t' n c i j) <$> seq 0 (length t)
                  = (fun k => tget t k c i j) <$> idx).
    { apply list_eq. intros n. rewrite !list_lookup_fmap.
      destruct (idx !! n) as [k|] eqn:Hk; simpl.
      - rewrite lookup_seq_lt by (apply lookup_lt_Some in Hk; lia). simpl.
        f_equal. rewrite (Hget n k c i j Hk). by rewrite Hin.
      - rewrite lookup_seq_ge; [done|]. apply lookup_ge_None in Hk. lia. }
    rewrite Heq. by apply fmap_Permutation.
  - assert (Heq : (fun n => tget t' n c i j) <$> seq 0 (length t)
                  = (fun n => tget t n c i j) <$> seq 0 (length t)).
    { apply list_eq. intros n. rewrite !list_lookup_fmap.
      destruct (seq 0 (length t) !! n) as [m|] eqn:Hm; simpl; [|done].
      apply lookup_seq in Hm as [-> Hn]. simpl.
      destruct (lookup_lt_is_Some_2 idx n ltac:(lia)) as [k Hk].
      f_equal. rewrite (Hget n k c i j Hk). by rewrite Hin. }
    by rewrite Heq.
Qed.

(** X9.  The overwrite keeps the shape of the batch tensor, so
    [inputs.size()] read after it (line 173) is what it was before (line
    171). *)
Theorem cutmix_assign_keeps_shape (t t' : list (list (list (list Q)))) (idx : list nat)
    (b : Z * Z * Z * Z) (C W H : nat) :
  rectangular t C W H -> t <> [] -> (0 < C)%nat -> (0 < W)%nat ->
  cutmix_assign t idx b = Some t' ->
  rectangular t' C W H /\ length t' = length t /\ size4 t' = size4 t.
Proof.
  intros Hr Hne HC HW Ht'.
  pose proof (cutmix_assign_rect _ _ _ _ _ _ _ Hr Ht') as Hr'.
  pose proof (cutmix_assign_length _ _ _ _ Ht') as Hlen.
  pose proof (cutmix_assign_nonempty _ _ _ _ Ht' Hne) as Hne'.
  split; [done|]. split; [done|].
  rewrite (rectangular_size4 _ _ _ _ Hr Hne HC HW).
  rewrite (rectangular_size4 _ _ _ _ Hr' Hne' HC HW). by rewrite Hlen.
Qed.

Lemma ex_x_rectangular : rectangular ex_x 1 2 4.
Proof. unfold rectangular, rect_sample, rect_channel. repeat constructor. Defined.

Lemma ex_swap_perm : Permutation [1; 0]%nat (seq 0 (length ex_x)).
Proof. simpl. apply perm_swap. Defined.

Lemma cutmix_assign_empty_box_witness :
  cutmix_assign ex_x [1; 0]%nat (0, 3, 2, 3) = Some ex_x.
Proof.
  apply (cutmix_assign_empty_box ex_x [1; 0]%nat 0 3 2 3 ex_swap_perm). left. lia.
Defined.

Lemma cutmix_assign_fixed_sample_witness :
  cutmix_assign ex_x [0; 1]%nat (0, 1, 2, 3) = Some ex_x /\
  forall n, [0; 1]%nat !! n = Some n -> ex_x !! n = ex_x !! n.
Proof.
  assert (Hrun : cutmix_assign ex_x [0; 1]%nat (0, 1, 2, 3) = Some ex_x) by reflexivity.
  split; [exact Hrun|].
  exact (proj1 (cutmix_assign_fixed_sample ex_x ex_x [0; 1]%nat (0, 1, 2, 3) Hrun)).
Defined.

Lemma partner_labels_permutation_witness : Permutation [1; 0] ex_labels.
Proof.
  exact (partner_labels_permutation ex_labels [1; 0]%nat [1; 0] (perm_swap _ _ _) eq_refl).
Defined.

Lemma ex_x_mixed_run : cutmix_assign ex_x [1; 0]%nat (0, 2, 2, 4) = Some ex_x_mixed.
Proof. reflexivity. Defined.

Lemma cutmix_assign_conserves_pixels_witness :
  Permutation ((fun n => tget ex_x_mixed n 0 1 3) <$> seq 0 (length ex_x))
              ((fun n => tget ex_x n 0 1 3) <$> seq 0 (length ex_x)).
Proof.
  exact (cutmix_assign_conserves_pixels ex_x ex_x_mixed [1; 0]%nat (0, 2, 2, 4) 1 2 4 0 1 3
           ex_x_rectangular ex_swap_perm ex_x_mixed_run).
Defined.

Lemma cutmix_assign_keeps_shape_witness : size4 ex_x_mixed = size4 ex_x.
Proof.
  destruct (cutmix_assign_keeps_shape ex_x ex_x_mixed [1; 0]%nat (0, 2, 2, 4) 1 2 4
              ex_x_rectangular ltac:(discriminate) ltac:(lia) ltac:(lia) ex_x_mixed_run)
    as (_ & _ & Hs).
  exact Hs.
Defined.

(** ** The closure when mixing changes nothing *)

Section ClosureFixed.
Context `{F : Framework} `{!FrameworkLaws F}.

(** X10.  When the cut height is 0 or 1 ([cut_h // 2 = 0]) the mixing branch
    still consumes its draws but overwrites nothing: the batch tensor is as
    loaded and the loss equals the unmixed [criterion(model(inputs), labels)]. *)
Theorem closure_thin_cut (a : args) (labels : list Z) (r : Q) (w : world)
    (C W H : nat) (cut_h : Z) :
  cutmix_triggers a r = true ->
  batch_ok (inputs w) labels C W H ->
  let d := sample_mix a (length (inputs w)) (Z.of_nat W) (Z.of_nat H) (rng_state w) in
  np_int_scaled_sqrt (Z.of_nat H) (1 - m_lam d) = Some cut_h ->
  cut_h <= 1 ->
  exists loss w',
    closure a labels r w = Some (loss, w') /\
    inputs w' = inputs w /\ rng_state w' = m_rng d /\
    (loss == criterion (model_out (net_state w) (inputs w)) labels)%Q.
Proof.
  intros Ht Hok d Hcut Hthin.
  destruct (closure_mixed a labels r w C W H Ht Hok)
    as (cut_h' & tb & x' & Hcut' & Hc0 & _ & Hx' & Hrun).
  fold d in Hcut', Hx', Hrun. rewrite Hcut in Hcut'. injection Hcut' as <-.
  assert (Hhalf : cut_h / 2 = 0) by (apply Z.div_small; lia).
  cbv zeta in Hx', Hrun. unfold box_of in Hx', Hrun. rewrite Hhalf in Hx', Hrun.
  rewrite Z.sub_0_r, Z.add_0_r in Hx', Hrun.
  rewrite cutmix_assign_empty_box in Hx';
    [|apply torch_randperm_perm|left; lia].
  injection Hx' as <-.
  eexists _, _. split; [exact Hrun|]. simpl. split; [done|]. split; [done|].
  unfold blended_loss, recomputed_lam. destruct (size4 (inputs w)) as [[[n c] w0] h0].
  rewrite Z.sub_diag, Z.mul_0_r. unfold Qdiv. change (inject_Z 0) with 0%Q. ring.
Qed.

(** X11.  When the permutation drawn is the identity every sample is mixed
    with itself: the batch tensor is as loaded and the loss equals the
    unmixed [criterion(model(inputs), labels)], whatever the box. *)
Theorem closure_identity_permutation (a : args) (labels : list Z) (r : Q) (w : world)
    (C W H : nat) :
  cutmix_triggers a r = true ->
  batch_ok (inputs w) labels C W H ->
  let d := sample_mix a (length (inputs w)) (Z.of_nat W) (Z.of_nat H) (rng_state w) in
  m_perm d = seq 0 (length (inputs w)) ->
  exists loss w',
    closure a labels r w = Some (loss, w') /\
    inputs w' = inputs w /\
    (loss == criterion (model_out (net_state w) (inputs w)) labels)%Q.
Proof.
  intros Ht Hok d Hid.
  destruct (closure_mixed a labels r w C W H Ht Hok)
    as (cut_h & tb & x' & _ & _ & Htb & Hx' & Hrun).
  fold d in Htb, Hx', Hrun. cbv zeta in Hx', Hrun.
  destruct (cutmix_assign_fixed_sample _ _ _ _ Hx') as [_ Hsame].
  rewrite (Hsame Hid) in *. clear Hsame.
  destruct Hok as (_ & _ & _ & _ & _ & Hlab).
  rewrite Hid, <- Hlab, index_select_seq in Htb. injection Htb as <-.
  eexists _, _. split; [exact Hrun|]. simpl. split; [done|].
  unfold blended_loss. ring.
Qed.

(** X12.  With a [torch.optim] optimizer and [beta = 0] or [cutmix_prob = 0]
    (the parser's defaults), a batch of the CutMix script is a batch of the
    baseline script: the same loss, the same calls on the network in the same
    order, the batch untouched; the one difference is the uniform draw. *)
Theorem train_batch_matches_baseline (a : args) (name : string)
    (x : list (list (list (list Q)))) (labels : list Z) (w : world) :
  (beta a == 0)%Q \/ (cutmix_prob a == 0)%Q ->
  let r := (np_rand (rng_state w)).1 in
  let netA := torch_step ZeroGrad (net_state w) in
  let loss := criterion (model_out netA x) labels in
  let net' := torch_step OptStep (torch_step (Backward loss) (torch_step (Forward x) netA)) in
  train_batch a (TorchOptim name) (x, labels) w =
    Some (loss, World (np_rand (rng_state w)).2 net' x
                  (trace w ++ [ZeroGrad; NpRand r; Forward x; Backward loss; OptStep])) /\
  baseline_train_batch (x, labels) w =
    Some (loss, World (rng_state w) net' x
                  (trace w ++ [ZeroGrad; Forward x; Backward loss; OptStep])).
Proof.
  intros Hoff r netA loss net'.
  assert (Ht : cutmix_triggers a r = false).
  { apply cutmix_triggers_off; [|done]. apply np_rand_range. }
  split.
  - unfold train_batch. run. fold r. rewrite (closure_plain a labels r _ Ht). simpl.
    do 3 f_equal. by rewrite <- !app_assoc.
  - unfold baseline_train_batch, baseline_loss. run.
    do 3 f_equal. by rewrite <- !app_assoc.
Qed.

(** The batch step returns on every well-formed batch. *)
Lemma train_batch_total (a : args) (opt : optimizer_obj)
    (x : list (list (list (list Q)))) (labels : list Z) (w : world) (C W H : nat) :
  batch_ok x labels C W H -> is_Some (train_batch a opt (x, labels) w).
Proof.
  intros Hok. unfold train_batch. run.
  match goal with |- context [closure a labels ?r ?w0] =>
    destruct (closure_total a labels r w0 C W H Hok)
      as (lossA & xA & gA & drawsA & HrunA & HokA & _);
    rewrite HrunA; simpl
  end.
  destruct (isinstance_SAM opt); simpl; [|done].
  match goal with |- context [closure a labels ?r ?w1] =>
    destruct (closure_total a labels r w1 C W H HokA)
      as (lossB & xB & gB & drawsB & HrunB & _);
    rewrite HrunB; simpl
  end.
  done.
Qed.

Lemma train_steps_total (a : args) (opt : optimizer_obj)
    (loader : list (list (list (list (list Q))) * list Z)) (w : world) :
  loader_ok loader -> is_Some (train_steps a opt loader w).
Proof.
  intros Hok. revert w. induction Hok as [|[x labels] rest (C & W & H & Hb) _ IH]; intros w.
  - done.
  - destruct (train_batch_total a opt x labels w C W H Hb) as [[loss w1] Hb1].
    destruct (IH w1) as [[more w2] Hrest].
    exists (loss :: more, w2).
    change (train_steps a opt ((x, labels) :: rest) w)
      with ((train_batch a opt (x, labels) ≫= fun loss =>
             train_steps a opt rest ≫= fun more => mret (loss :: more)) w).
    unfold mbind, M_bind at 1. rewrite Hb1.
    unfold mbind, M_bind. by rewrite Hrest.
Qed.

End ClosureFixed.

Section EpochMean.
Context `{F : Framework}.

Lemma train_batches_fold (a : args) (opt : optimizer_obj)
    (loader : list (list (list (list (list Q))) * list Z)) (acc : Q) (w : world) :
  train_batches a opt loader acc w =
    match train_steps a opt loader w with
    | Some (losses, w') => Some (fold_left Qplus losses acc, w')
    | None => None
    end.
Proof.
  revert acc w. induction loader as [|batch rest IH]; intros acc w; [done|].
  simpl. unfold mbind, M_bind.
  destruct (train_batch a opt batch w) as [[loss w1]|]; [|done].
  rewrite IH. by destruct (train_steps a opt rest w1) as [[more w2]|].
Qed.

Lemma train_steps_length (a : args) (opt : optimizer_obj)
    (loader : list (list (list (list (list Q))) * list Z)) (w w' : world) (losses : list Q) :
  train_steps a opt loader w = Some (losses, w') -> length losses = length loader.
Proof.
  revert w losses. induction loader as [|batch rest IH]; intros w losses.
  - by intros [= <- _].
  - simpl. unfold mbind, M_bind.
    destruct (train_batch a opt batch w) as [[loss w1]|]; [|done].
    destruct (train_steps a opt rest w1) as [[more w2]|] eqn:E; [|done].
    intros [= <- <-]. simpl. f_equal. by eapply IH.
Qed.

(** X13.  An epoch's training loss is the mean of the losses its batches
    return (with SAM, those of the second closure call); the epoch raises
    when the loader is empty (the division of line 194) or when a batch
    raises. *)
Theorem train_epoch_mean (a : args) (opt : optimizer_obj)
    (loader : list (list (list (list (list Q))) * list Z)) (w : world) :
  let w0 := World (rng_state w) (torch_step ModelTrain (net_state w)) (inputs w)
              (trace w ++ [ModelTrain]) in
  (loader = [] -> train_epoch a opt loader w = None) /\
  (train_steps a opt loader w0 = None -> train_epoch a opt loader w = None) /\
  (forall losses w',
     loader <> [] -> train_steps a opt loader w0 = Some (losses, w') ->
     length losses = length loader /\
     exists m,
       train_epoch a opt loader w = Some (m, w') /\
       (m == np_sum losses / inject_Z (Z.of_nat (length loader)))%Q).
Proof.
  intros w0. unfold train_epoch. run. fold w0. rewrite train_batches_fold.
  split; [|split].
  - intros ->. done.
  - intros ->. done.
  - intros losses w' Hne Hsteps. rewrite Hsteps. simpl.
    split; [by eapply train_steps_length|].
    rewrite decide_False by done. eexists. split; [reflexivity|].
    rewrite fold_left_Qplus. apply Qdiv_comp; [ring|reflexivity].
Qed.

End EpochMean.

Lemma closure_thin_cut_witness :
  exists loss w',
    closure ex_args ex_labels (1 # 4) (ex_loaded [1; 1; 1; 2]%Q) = Some (loss, w') /\
    inputs w' = ex_x.
Proof.
  destruct (closure_thin_cut ex_args ex_labels (1 # 4) (ex_loaded [1; 1; 1; 2]%Q)
              1 2 4 0 eq_refl (ex_batch_ok _) eq_refl ltac:(lia))
    as (loss & w' & Hrun & Hin & _).
  exists loss, w'. split; [exact Hrun|exact Hin].
Defined.

Lemma closure_identity_permutation_witness :
  exists loss w',
    closure ex_args ex_labels (1 # 4) (ex_loaded [0; 0; 1; 2]%Q) = Some (loss, w') /\
    inputs w' = ex_x.
Proof.
  destruct (closure_identity_permutation ex_args ex_labels (1 # 4)
              (ex_loaded [0; 0; 1; 2]%Q) 1 2 4 eq_refl (ex_batch_ok _) eq_refl)
    as (loss & w' & Hrun & Hin & _).
  exists loss, w'. split; [exact Hrun|exact Hin].
Defined.

Lemma train_batch_matches_baseline_witness :
  exists loss w1 w2,
    train_batch default_args (TorchOptim "SGD") (ex_x, ex_labels) (ex_w ex_tape)
      = Some (loss, w1) /\
    baseline_train_batch (ex_x, ex_labels) (ex_w ex_tape) = Some (loss, w2) /\
    net_state w1 = net_state w2.
Proof.
  destruct (train_batch_matches_baseline default_args "SGD" ex_x ex_labels (ex_w ex_tape)
              (or_introl (Qeq_refl 0))) as [H1 H2].
  eexists _, _, _. split; [exact H1|]. split; [exact H2|]. reflexivity.
Defined.

(** ** The checkpoint policy along a run *)

Lemma best_written_iff (st : best_state) (f1 vl : Q) :
  BestPth ∈ (checkpoint st f1 vl).2 <-> (best_f1_score st < f1)%Q.
Proof.
  unfold checkpoint. destruct (Qlt_bool (best_f1_score st) f1) eqn:E; simpl.
  - apply Qlt_bool_true in E. split; [done|]. intros _. repeat constructor.
  - split.
    + intros Hin. apply list_elem_of_singleton in Hin. done.
    + intros Hlt. apply Qlt_bool_true in Hlt. congruence.
Qed.

Lemma checkpoint_best_f1_lt (st : best_state) (f0 v0 f : Q) :
  (best_f1_score (checkpoint st f0 v0).1 < f)%Q <->
  (best_f1_score st < f)%Q /\ (f0 < f)%Q.
Proof.
  unfold checkpoint. destruct (Qlt_bool (best_f1_score st) f0) eqn:E; simpl.
  - apply Qlt_bool_true in E. split.
    + intros H. split; [|done]. by apply Qlt_trans with f0.
    + by intros [_ H].
  - apply Qlt_bool_false in E. split.
    + intros H. split; [done|]. by apply Qle_lt_trans with (best_f1_score st).
    + by intros [H _].
Qed.

Lemma py_min_cases (best : float_inf) (v : Q) :
  (py_min best v = best \/ py_min best v = Fin v) /\
  float_inf_le (py_min best v) (Fin v).
Proof.
  destruct best as [b|]; simpl.
  - destruct (Qlt_bool v b) eqn:E.
    + split; [by right|apply Qle_refl].
    + apply Qlt_bool_false in E. split; [by left|done].
  - split; [by right|apply Qle_refl].
Qed.

(** X14.  Along a run "best" is written at an epoch exactly when its F1 is
    strictly above the starting best and above the F1 of every earlier
    epoch: at the strict records, never on a tie. *)
Theorem best_written_at_strict_records (epochs : list (Q * Q)) (st : best_state)
    (i : nat) (f1 vl : Q) (r : best_state * list artifact) :
  epochs !! i = Some (f1, vl) ->
  checkpoint_run st epochs !! i = Some r ->
  BestPth ∈ r.2 <->
    (best_f1_score st < f1)%Q /\
    forall j f v, (j < i)%nat -> epochs !! j = Some (f, v) -> (f < f1)%Q.
Proof.
  revert st i. induction epochs as [|[f0 v0] rest IH]; intros st i He Hr; [done|].
  destruct i as [|i]; simpl in He, Hr.
  - injection He as -> ->. injection Hr as <-.
    rewrite best_written_iff. split; [|by intros [H _]].
    intros H. split; [done|]. intros j f v Hj. lia.
  - rewrite (IH _ _ He Hr), checkpoint_best_f1_lt. split.
    + intros [[Hst H0] Hrest]. split; [done|].
      intros [|j] f v Hj Hf; simpl in Hf.
      * by injection Hf as <- <-.
      * apply (Hrest j f v); [lia|done].
    + intros [Hst Hall]. split; [split; [done|]|].
      * by apply (Hall 0%nat f0 v0); [lia|].
      * intros j f v Hj Hf. apply (Hall (S j) f v); [lia|done].
Qed.

(** X15.  "Best" is compared with [>] against a best F1 that starts at 0: a
    run none of whose epochs reaches an F1 above 0 never writes "best" (nor
    the confusion matrix), only "last". *)
Theorem best_never_written_at_zero_f1 (epochs : list (Q * Q)) :
  (forall f v, (f, v) ∈ epochs -> (f <= 0)%Q) ->
  forall r, r ∈ checkpoint_run best_init epochs -> r.2 = [LastPth].
Proof.
  assert (Hgen : forall st,
    (forall f v, (f, v) ∈ epochs -> (f <= best_f1_score st)%Q) ->
    forall r, r ∈ checkpoint_run st epochs -> r.2 = [LastPth]).
  { induction epochs as [|[f0 v0] rest IH]; intros st Hle r Hin.
    - by apply elem_of_nil in Hin.
    - simpl in Hin.
      assert (E : Qlt_bool (best_f1_score st) f0 = false).
      { apply Qlt_bool_false. apply (Hle f0 v0). left. }
      assert (Hstep : checkpoint st f0 v0
                = (BestState (py_min (best_val_loss st) v0) (best_f1_score st), [LastPth])).
      { unfold checkpoint. by rewrite E. }
      rewrite Hstep in Hin. simpl in Hin.
      apply elem_of_cons in Hin as [->|Hin]; [done|].
      apply (IH (BestState (py_min (best_val_loss st) v0) (best_f1_score st))); [|done].
      intros f v Hf. simpl. apply (Hle f v). by right. }
  intros Hzero. apply Hgen. intros f v Hf. simpl. by apply (Hzero f v).
Qed.

(** X16.  After a run the reported [best_val_loss] is the least validation
    loss met: it is below the starting value and below every epoch's loss,
    and it is the starting value or the loss of one of the epochs. *)
Theorem best_val_loss_is_least (epochs : list (Q * Q)) (st s : best_state) :
  last (st :: (checkpoint_run st epochs).*1) = Some s ->
  float_inf_le (best_val_loss s) (best_val_loss st) /\
  (forall f v, (f, v) ∈ epochs -> float_inf_le (best_val_loss s) (Fin v)) /\
  (best_val_loss s = best_val_loss st \/
   exists f v, (f, v) ∈ epochs /\ best_val_loss s = Fin v).
Proof.
  revert st. induction epochs as [|[f0 v0] rest IH]; intros st Hlast.
  - simpl in Hlast. injection Hlast as <-.
    split; [apply float_inf_le_refl|]. split; [|by left].
    intros f v Hin. by apply elem_of_nil in Hin.
  - change (checkpoint_run st ((f0, v0) :: rest))
      with (checkpoint st f0 v0 :: checkpoint_run (checkpoint st f0 v0).1 rest) in Hlast.
    rewrite fmap_cons, last_cons_cons in Hlast.
    destruct (IH _ Hlast) as (Hle & Hall & Hwhich).
    rewrite checkpoint_best_val_loss in Hle, Hwhich.
    destruct (py_min_cases (best_val_loss st) v0) as [Hcase Hv0].
    split; [|split].
    + eapply float_inf_le_trans; [exact Hle|apply py_min_le].
    + intros f v Hin. apply elem_of_cons in Hin as [[= -> ->]|Hin].
      * eapply float_inf_le_trans; [exact Hle|exact Hv0].
      * by apply (Hall f v).
    + destruct Hwhich as [Heq|(f & v & Hin & Heq)].
      * destruct Hcase as [Hc|Hc]; rewrite Hc in Heq.
        -- by left.
        -- right. exists f0, v0. split; [left|done].
      * right. exists f, v. split; [by right|done].
Qed.

(** X17.  In the baseline the reported best accuracy is not a maximum of its
    own: after a run, best accuracy and best F1 are the starting pair or the
    accuracy and the F1 of one and the same epoch. *)
Theorem baseline_best_acc_follows_f1 (epochs : list (Q * Q * Q))
    (st s : baseline_best_state) :
  last (st :: (baseline_checkpoint_run st epochs).*1) = Some s ->
  (best_val_acc s = best_val_acc st /\ best_val_f1_score s = best_val_f1_score st) \/
  exists vl, (best_val_f1_score s, vl, best_val_acc s) ∈ epochs.
Proof.
  revert st. induction epochs as [|[[f0 v0] a0] rest IH]; intros st Hlast.
  - simpl in Hlast. injection Hlast as <-. by left.
  - change (baseline_checkpoint_run st ((f0, v0, a0) :: rest))
      with (baseline_checkpoint st f0 v0 a0
              :: baseline_checkpoint_run (baseline_checkpoint st f0 v0 a0).1 rest) in Hlast.
    rewrite fmap_cons, last_cons_cons in Hlast.
    destruct (IH _ Hlast) as [[Ha Hf]|(vl & Hin)].
    + unfold baseline_checkpoint in Ha, Hf.
      destruct (Qlt_bool (best_val_f1_score st) f0); simpl in Ha, Hf.
      * right. exists v0. rewrite Ha, Hf. left.
      * by left.
    + right. exists vl. by right.
Qed.

Lemma best_written_at_strict_records_witness :
  BestPth ∈ (checkpoint best_init (7 # 10) 1, [BestPth; ConfusionMatrix; LastPth]).2 <->
    (best_f1_score best_init < 7 # 10)%Q /\
    forall j f v, (j < 0)%nat -> [(7 # 10, 1)]%Q !! j = Some (f, v) -> (f < 7 # 10)%Q.
Proof.
  exact (best_written_at_strict_records [(7 # 10, 1)]%Q best_init 0 (7 # 10) 1
           (BestState (Fin 1) (7 # 10), [BestPth; ConfusionMatrix; LastPth])
           eq_refl eq_refl).
Defined.

Lemma best_never_written_at_zero_f1_witness :
  (checkpoint best_init 0 1).2 = [LastPth].
Proof.
  apply (best_never_written_at_zero_f1 [(0, 1); (0, 2)]%Q).
  - intros f v Hin. apply elem_of_cons in Hin as [[= -> _]|Hin]; [apply Qle_refl|].
    apply list_elem_of_singleton in Hin as [= -> _]. apply Qle_refl.
  - left.
Defined.

Lemma best_val_loss_is_least_witness :
  float_inf_le (Fin 1) (best_val_loss best_init).
Proof.
  exact (proj1 (best_val_loss_is_least [(0, 2); (0, 1)]%Q best_init
                  (BestState (Fin 1) 0) eq_refl)).
Defined.

Lemma baseline_best_acc_follows_f1_witness :
  (best_val_acc (BaselineBest (1 # 2) (Fin 1) (7 # 10)) = best_val_acc baseline_best_init /\
   best_val_f1_score (BaselineBest (1 # 2) (Fin 1) (7 # 10))
     = best_val_f1_score baseline_best_init) \/
  exists vl, (7 # 10, vl, 1 # 2)%Q ∈ [(7 # 10, 2, 1 # 2); (3 # 10, 1, 9 # 10)]%Q.
Proof.
  exact (baseline_best_acc_follows_f1 [(7 # 10, 2, 1 # 2); (3 # 10, 1, 9 # 10)]%Q
           baseline_best_init (BaselineBest (1 # 2) (Fin 1) (7 # 10)) eq_refl).
Defined.

(** ** The baseline's running log *)

Lemma div_succ_tick (L idx : Z) :
  0 < L -> 0 <= idx ->
  ((idx + 1) mod L = 0 -> (idx + 1) / L = idx / L + 1 /\ idx + 1 = (idx / L + 1) * L) /\
  ((idx + 1) mod L <> 0 -> (idx + 1) / L = idx / L).
Proof.
  intros HL Hidx.
  pose proof (Z.div_mod (idx + 1) L ltac:(lia)) as H1.
  pose proof (Z.div_mod idx L ltac:(lia)) as H0.
  pose proof (Z.mod_pos_bound (idx + 1) L HL) as B1.
  pose proof (Z.mod_pos_bound idx L HL) as B0.
  split; intros Hm.
  - assert ((idx + 1) / L = idx / L + 1) by nia. split; [done|nia].
  - nia.
Qed.

Section RunningLog.
Context `{F : Framework}.

Lemma baseline_train_step_run (x : list (list (list (list Q)))) (labels : list Z)
    (w : world) :
  let netA := torch_step ZeroGrad (net_state w) in
  let outs := model_out netA x in
  let loss := criterion outs labels in
  baseline_train_step (x, labels) w =
    Some ((loss, count_matches (argmax outs) labels),
          World (rng_state w)
                (torch_step OptStep (torch_step (Backward loss) (torch_step (Forward x) netA)))
                x (trace w ++ [ZeroGrad; Forward x; Backward loss; OptStep])).
Proof.
  intros netA outs loss. unfold baseline_train_step. run.
  do 3 f_equal. by rewrite <- !app_assoc.
Qed.

Lemma baseline_train_step_total (batch : list (list (list (list Q))) * list Z) (w : world) :
  exists r w1, baseline_train_step batch w = Some (r, w1) /\
               baseline_train_batch batch w = Some (r.1, w1).
Proof.
  destruct batch as [x labels]. eexists _, _.
  split; [apply baseline_train_step_run|].
  unfold baseline_train_batch, baseline_loss. run.
  do 3 f_equal. by rewrite <- !app_assoc.
Qed.

Lemma baseline_logged_loop_cons (L B e len idx : Z)
    (batch : list (list (list (list Q))) * list Z)
    (rest : list (list (list (list (list Q))) * list Z)) (lv : Q) (m : Z) (w : world) :
  baseline_logged_loop L B e len idx (batch :: rest) lv m w =
    match baseline_train_step batch w with
    | None => None
    | Some (r, w1) =>
        match log_tick L B e len idx (lv + r.1)%Q (m + r.2) with
        | None => None
        | Some (Some record) =>
            match baseline_logged_loop L B e len (idx + 1) rest 0%Q 0 w1 with
            | None => None
            | Some (more, w2) => Some ((record :: more.1, more.2), w2)
            end
        | Some None => baseline_logged_loop L B e len (idx + 1) rest (lv + r.1)%Q (m + r.2) w1
        end
    end.
Proof.
  change (baseline_logged_loop L B e len idx (batch :: rest) lv m w)
    with ((baseline_train_step batch ≫= fun r =>
           lift (log_tick L B e len idx (lv + r.1)%Q (m + r.2)) ≫= fun tick =>
           match tick with
           | Some record =>
               baseline_logged_loop L B e len (idx + 1) rest 0%Q 0 ≫= fun more =>
               mret (record :: more.1, more.2)
           | None => baseline_logged_loop L B e len (idx + 1) rest (lv + r.1)%Q (m + r.2)
           end) w).
  unfold mbind, M_bind at 1.
  destruct (baseline_train_step batch w) as [[r w1]|]; [|done].
  unfold mbind, M_bind at 1. unfold lift.
  destruct (log_tick L B e len idx (lv + r.1)%Q (m + r.2)) as [[record|]|]; try done.
Qed.

(** X18.  With [log_interval = L > 0] the baseline's batch loop over [n]
    batches logs [n // L] records, the [k]-th after batch [(k + 1) * L - 1] at
    step [epoch * n + (k + 1) * L - 1]; the last [n mod L] batches are never
    logged. *)
Theorem baseline_log_cadence (L B e : Z)
    (loader : list (list (list (list (list Q))) * list Z)) (w : world) :
  0 < L -> B <> 0 ->
  let n := Z.of_nat (length loader) in
  exists recs rest w',
    baseline_train_loop L B e loader w = Some ((recs, rest), w') /\
    Z.of_nat (length recs) = n / L /\
    forall (k : nat) rec, recs !! k = Some rec ->
      log_step rec = e * n + (Z.of_nat k + 1) * L - 1.
Proof.
  intros HL HB n.
  assert (Hgen : forall (l : list (list (list (list (list Q))) * list Z))
                        idx lv m (w0 : world) len,
    0 <= idx ->
    exists recs rest w',
      baseline_logged_loop L B e len idx l lv m w0 = Some ((recs, rest), w') /\
      Z.of_nat (length recs) = (idx + Z.of_nat (length l)) / L - idx / L /\
      forall (k : nat) rec, recs !! k = Some rec ->
        log_step rec = e * len + (idx / L + Z.of_nat k + 1) * L - 1).
  { induction l as [|batch rest IH]; intros idx lv m w0 len Hidx.
    - eexists [], _, _. split; [reflexivity|]. simpl.
      rewrite Z.add_0_r. split; [lia|]. intros k rec Hk. done.
    - rewrite baseline_logged_loop_cons.
      destruct (baseline_train_step_total batch w0) as (r & w1 & -> & _).
      destruct (div_succ_tick L idx HL Hidx) as [Hyes Hno].
      unfold log_tick. rewrite decide_False by lia.
      replace (idx + Z.of_nat (length (batch :: rest)))
        with (idx + 1 + Z.of_nat (length rest)) by (simpl; lia).
      case_decide as Hmod.
      + rewrite decide_False by done.
        destruct (IH (idx + 1) 0%Q 0 w1 len ltac:(lia))
          as (recs & rest' & w' & -> & Hlen & Hsteps).
        destruct (Hyes Hmod) as [Hdiv Heq].
        eexists _, _, _. split; [reflexivity|]. simpl.
        split; [lia|].
        intros [|k] rec Hk; simpl in Hk.
        * injection Hk as <-. simpl. lia.
        * rewrite (Hsteps k rec Hk), Hdiv. lia.
      + destruct (IH (idx + 1) (lv + r.1)%Q (m + r.2) w1 len ltac:(lia))
          as (recs & rest' & w' & -> & Hlen & Hsteps).
        rewrite (Hno Hmod) in Hlen, Hsteps.
        eexists _, _, _. split; [reflexivity|]. split; [done|]. exact Hsteps. }
  unfold baseline_train_loop. run.
  match goal with |- context [baseline_logged_loop L B e ?len 0 loader _ _ ?w0] =>
    destruct (Hgen loader 0 0%Q 0 w0 len ltac:(lia)) as (recs & rest & w' & Hrun & Hlen & Hsteps)
  end.
  exists recs, rest, w'. split; [exact Hrun|].
  rewrite Z.add_0_l, Zdiv_0_l, Z.sub_0_r in Hlen. split; [exact Hlen|].
  intros k rec Hk. rewrite (Hsteps k rec Hk), Zdiv_0_l. fold n. lia.
Qed.

(** X19.  The running log accounts for every batch once: [log_interval]
    times the sum of the logged losses plus the sum left in [loss_value] is
    the sum of the batch losses, and likewise for the correct predictions;
    logging changes nothing of the training itself. *)
Theorem baseline_log_conservation (L B e : Z)
    (loader : list (list (list (list (list Q))) * list Z)) (w : world) :
  L <> 0 -> B <> 0 ->
  let w0 := World (rng_state w) (torch_step ModelTrain (net_state w)) (inputs w)
              (trace w ++ [ModelTrain]) in
  exists rs recs lv m w',
    baseline_train_steps loader w0 = Some (rs, w') /\
    baseline_train_batches loader w0 = Some (tt, w') /\
    baseline_train_loop L B e loader w = Some ((recs, (lv, m)), w') /\
    (inject_Z L * np_sum (log_loss <$> recs) + lv == np_sum rs.*1)%Q /\
    (inject_Z (B * L) * np_sum (log_acc <$> recs) + inject_Z m
       == inject_Z (np_sum_int rs.*2))%Q.
Proof.
  intros HL HB w0.
  assert (HLq : ~ (inject_Z L == 0)%Q).
  { intros H. apply HL. unfold Qeq in H. simpl in H. lia. }
  assert (HBq : ~ (inject_Z B == 0)%Q).
  { intros H. apply HB. unfold Qeq in H. simpl in H. lia. }
  assert (Hgen : forall (l : list (list (list (list (list Q))) * list Z))
                        idx lv0 m0 (w1 : world) len,
    exists rs recs lv m w',
      baseline_train_steps l w1 = Some (rs, w') /\
      baseline_train_batches l w1 = Some (tt, w') /\
      baseline_logged_loop L B e len idx l lv0 m0 w1 = Some ((recs, (lv, m)), w') /\
      (inject_Z L * np_sum (log_loss <$> recs) + lv == lv0 + np_sum rs.*1)%Q /\
      (inject_Z (B * L) * np_sum (log_acc <$> recs) + inject_Z m
         == inject_Z (m0 + np_sum_int rs.*2))%Q).
  { induction l as [|batch rest IH]; intros idx lv0 m0 w1 len.
    - eexists [], [], lv0, m0, w1. repeat split; simpl; try reflexivity.
      + ring.
      + rewrite Z.add_0_r. ring.
    - rewrite baseline_logged_loop_cons.
      destruct (baseline_train_step_total batch w1) as (r & w2 & Hstep & Hbatch).
      rewrite Hstep. unfold log_tick. rewrite decide_False by done.
      change (baseline_train_steps (batch :: rest) w1)
        with ((baseline_train_step batch ≫= fun r =>
               baseline_train_steps rest ≫= fun more => mret (r :: more)) w1).
      change (baseline_train_batches (batch :: rest) w1)
        with ((baseline_train_batch batch ≫= fun _ => baseline_train_batches rest) w1).
      unfold mbind, M_bind at 1. rewrite Hstep.
      unfold mbind, M_bind at 2. rewrite Hbatch.
      case_decide as Hmod.
      + rewrite decide_False by done.
        destruct (IH (idx + 1) 0%Q 0 w2 len)
          as (rs & recs & lv & m & w' & Hs & Hb & Hl & Hloss & Hacc).
        unfold mbind, M_bind. rewrite Hs, Hb, Hl.
        eexists (r :: rs), _, lv, m, w'.
        split; [reflexivity|]. split; [reflexivity|]. split; [reflexivity|].
        rewrite !fmap_cons. unfold np_sum, np_sum_int in *.
        cbn [log_loss log_acc foldr fst snd].
        split.
        * transitivity ((lv0 + r.1)
                        + (inject_Z L * foldr Qplus 0 (log_loss <$> recs) + lv))%Q;
            [field; exact HLq|]. rewrite Hloss. ring.
        * transitivity (inject_Z (m0 + r.2)
                        + (inject_Z (B * L) * foldr Qplus 0 (log_acc <$> recs)
                           + inject_Z m))%Q;
            [rewrite inject_Z_mult; field; split; assumption|].
          rewrite Hacc. rewrite !inject_Z_plus. ring.
      + destruct (IH (idx + 1) (lv0 + r.1)%Q (m0 + r.2) w2 len)
          as (rs & recs & lv & m & w' & Hs & Hb & Hl & Hloss & Hacc).
        unfold mbind, M_bind. rewrite Hs, Hb, Hl.
        eexists (r :: rs), _, lv, m, w'.
        split; [reflexivity|]. split; [reflexivity|]. split; [reflexivity|].
        rewrite !fmap_cons. unfold np_sum, np_sum_int in *.
        cbn [foldr fst snd].
        split.
        * rewrite Hloss. ring.
        * rewrite Hacc. rewrite !inject_Z_plus. ring. }
  unfold baseline_train_loop. run. fold w0.
  destruct (Hgen loader 0 0%Q 0 w0 (Z.of_nat (length loader)))
    as (rs & recs & lv & m & w' & Hs & Hb & Hl & Hloss & Hacc).
  exists rs, recs, lv, m, w'.
  split; [exact Hs|]. split; [exact Hb|]. split; [exact Hl|]. split.
  - rewrite Hloss. ring.
  - by rewrite Hacc, Z.add_0_l.
Qed.

End RunningLog.

Section RunningLogErrors.
Context `{F : Framework}.

(** X20.  [log_interval = 0] makes the baseline's loop raise at its first
    batch (the [%] of line 129), so only an empty loader gets through; with
    [batch_size = 0] and [log_interval = L > 0] the loop raises exactly when
    it reaches a logging batch, that is when there are at least [L] batches. *)
Theorem baseline_log_raises (L B e : Z)
    (loader : list (list (list (list (list Q))) * list Z)) (w : world) :
  (baseline_train_loop 0 B e loader w = None <-> loader <> []) /\
  (0 < L ->
   baseline_train_loop L 0 e loader w = None <-> L <= Z.of_nat (length loader)).
Proof.
  split.
  - unfold baseline_train_loop. run. destruct loader as [|batch rest].
    + simpl. split; [done|]. intros H. by destruct H.
    + rewrite baseline_logged_loop_cons.
      destruct (baseline_train_step_total batch
                  (World (rng_state w) (torch_step ModelTrain (net_state w)) (inputs w)
                     (trace w ++ [ModelTrain]))) as (r & w1 & -> & _).
      unfold log_tick. rewrite decide_True by done. done.
  - intros HL.
    assert (Hgen : forall (l : list (list (list (list (list Q))) * list Z))
                          idx lv m (w0 : world) len,
      0 <= idx ->
      baseline_logged_loop L 0 e len idx l lv m w0 = None
      <-> idx / L < (idx + Z.of_nat (length l)) / L).
    { induction l as [|batch rest IH]; intros idx lv m w0 len Hidx.
      - simpl. rewrite Z.add_0_r. split; [done|lia].
      - rewrite baseline_logged_loop_cons.
        destruct (baseline_train_step_total batch w0) as (r & w1 & -> & _).
        destruct (div_succ_tick L idx HL Hidx) as [Hyes Hno].
        unfold log_tick. rewrite decide_False by lia.
        replace (idx + Z.of_nat (length (batch :: rest)))
          with (idx + 1 + Z.of_nat (length rest)) by (simpl; lia).
        case_decide as Hmod.
        + rewrite decide_True by done. split; [|done]. intros _.
          destruct (Hyes Hmod) as [Hdiv _].
          pose proof (Z.div_le_mono (idx + 1) (idx + 1 + Z.of_nat (length rest)) L HL
                        ltac:(lia)).
          lia.
        + rewrite (IH (idx + 1) _ _ w1 len ltac:(lia)), (Hno Hmod). done. }
    unfold baseline_train_loop. run.
    rewrite Hgen by lia. rewrite Z.add_0_l, Zdiv_0_l.
    split; intros H.
    + destruct (Z_lt_le_dec (Z.of_nat (length loader)) L) as [Hlt|Hle]; [|done].
      rewrite Z.div_small in H by lia. lia.
    + pose proof (Z.div_le_mono L (Z.of_nat (length loader)) L HL H) as Hd.
      rewrite Z_div_same_full in Hd by lia. lia.
Qed.

End RunningLogErrors.

Lemma baseline_log_cadence_witness :
  exists recs rest w',
    baseline_train_loop 2 2 3 [(ex_x, ex_labels); (ex_x, ex_labels); (ex_x, ex_labels)]
      (ex_w []) = Some ((recs, rest), w') /\
    Z.of_nat (length recs) = 3 / 2.
Proof.
  destruct (baseline_log_cadence 2 2 3
              [(ex_x, ex_labels); (ex_x, ex_labels); (ex_x, ex_labels)] (ex_w [])
              ltac:(lia) ltac:(lia))
    as (recs & rest & w' & Hrun & Hlen & _).
  exists recs, rest, w'. split; [exact Hrun|exact Hlen].
Defined.

Lemma baseline_log_conservation_witness :
  exists (rs : list (Q * Z)) recs lv m w',
    baseline_train_loop 2 2 3 [(ex_x, ex_labels); (ex_x, ex_labels); (ex_x, ex_labels)]
      (ex_w []) = Some ((recs, (lv, m)), w') /\
    (inject_Z 2 * np_sum (log_loss <$> recs) + lv == np_sum rs.*1)%Q.
Proof.
  destruct (baseline_log_conservation 2 2 3
              [(ex_x, ex_labels); (ex_x, ex_labels); (ex_x, ex_labels)] (ex_w [])
              ltac:(lia) ltac:(lia))
    as (rs & recs & lv & m & w' & _ & _ & Hrun & Hloss & _).
  exists rs, recs, lv, m, w'. split; [exact Hrun|exact Hloss].
Defined.

(** ** Validation *)

Lemma count_matches_bounds (labels preds : list Z) :
  0 <= count_matches labels preds <= Z.of_nat (length labels).
Proof.
  unfold count_matches. split; [lia|].
  pose proof (length_filter (fun p : Z * Z => p.1 = p.2) (zip labels preds)) as Hf.
  pose proof (length_zip_with pair labels preds) as Hz.
  lia.
Qed.

Section ValidationMore.
Context `{F : Framework}.

Lemma val_forwards_frame (loader : list (list (list (list (list Q))) * list Z))
    (w w' : world) (outs : list (list (list Q))) :
  val_forwards loader w = Some (outs, w') ->
  rng_state w' = rng_state w /\ trace w' = trace w ++ (Forward <$> loader.*1).
Proof.
  revert w outs. induction loader as [|[x labels] rest IH]; intros w outs.
  - simpl. intros [= <- <-]. by rewrite app_nil_r.
  - simpl. run.
    destruct (val_forwards rest _) as [[more w2]|] eqn:E; [|done].
    intros [= <- <-]. apply IH in E as [Hr Ht]. simpl in Hr, Ht.
    split; [done|]. rewrite Ht, <- app_assoc. done.
Qed.

Lemma batch_matches_bounds (loader : list (list (list (list (list Q))) * list Z))
    (outs : list (list (list Q))) :
  0 <= np_sum_int (batch_matches loader outs) <= Z.of_nat (length (concat loader.*2)).
Proof.
  revert outs. induction loader as [|[x labels] rest IH]; intros outs.
  - destruct outs; simpl; lia.
  - destruct outs as [|o outs]; [simpl; lia|].
    specialize (IH outs).
    pose proof (count_matches_bounds labels (argmax o)).
    assert (Hc : length (concat ((x, labels) :: rest).*2)
                 = (length labels + length (concat rest.*2))%nat).
    { rewrite fmap_cons. simpl. by rewrite length_app. }
    assert (Hs : np_sum_int (batch_matches ((x, labels) :: rest) (o :: outs))
                 = count_matches labels (argmax o)
                   + np_sum_int (batch_matches rest outs)) by reflexivity.
    rewrite Hc, Hs. lia.
Qed.

(** X21.  A validation pass raises exactly on an empty loader.  When it
    returns it has made one forward pass per batch, on the batches as loaded
    and in their order, after switching the model to evaluation mode; it
    draws no random number, and makes no backward pass and no optimizer
    step. *)
Theorem validate_frame (loader : list (list (list (list (list Q))) * list Z))
    (n : Z) (w : world) :
  (validate loader n w = None <-> loader = []) /\
  (baseline_validate loader n w = None <-> loader = []) /\
  forall v w',
    validate loader n w = Some (v, w') \/ baseline_validate loader n w = Some (v, w') ->
    rng_state w' = rng_state w /\
    trace w' = trace w ++ ModelEval :: (Forward <$> loader.*1).
Proof.
  set (w0 := World (rng_state w) (torch_step ModelEval (net_state w)) (inputs w)
               (trace w ++ [ModelEval])).
  destruct (val_loop_run loader val_init w0) as (outs & w1 & Hfw & _ & Hloop & Hbase).
  apply val_forwards_frame in Hfw as [Hrng Htr]. simpl in Hrng, Htr.
  assert (Hv : validate loader n w
               = if decide (loader = []) then None
                 else Some (ValResult
                   (np_sum (batch_losses loader outs)
                      / inject_Z (Z.of_nat (length loader)))%Q
                   (inject_Z (np_sum_int (batch_matches loader outs)) / inject_Z n)%Q
                   (fold_left Qplus (batch_f1s loader outs) 0
                      / inject_Z (Z.of_nat (length loader)))%Q
                   (first_figure loader outs) (concat (map argmax outs))
                   (concat loader.*2), w1)).
  { unfold validate. run. fold w0. rewrite Hloop. simpl. by case_decide. }
  assert (Hb : exists bv, baseline_validate loader n w
               = if decide (loader = []) then None else Some (bv, w1)).
  { eexists. unfold baseline_validate. run. fold w0. rewrite Hbase. simpl.
    by case_decide. }
  destruct Hb as [bv Hb]. rewrite Hv, Hb.
  split; [|split].
  - case_decide; by split.
  - case_decide; by split.
  - intros v w'. case_decide; [by intros [?|?]|].
    intros [[= _ <-]|[= _ <-]]; (split; [done|]);
      rewrite Htr, <- app_assoc; done.
Qed.

(** X22.  The accuracy a validation pass returns is a share: it lies in
    [[0, 1]] whenever the validation-set size is positive and not below the
    number of labels the loader handed out. *)
Theorem validate_accuracy_share (loader : list (list (list (list (list Q))) * list Z))
    (n : Z) (w w' : world) (v : val_result) :
  validate loader n w = Some (v, w') \/ baseline_validate loader n w = Some (v, w') ->
  0 < n -> Z.of_nat (length (res_true v)) <= n ->
  (0 <= val_acc v)%Q /\ (val_acc v <= 1)%Q.
Proof.
  intros H.
  set (w0 := World (rng_state w) (torch_step ModelEval (net_state w)) (inputs w)
               (trace w ++ [ModelEval])).
  destruct (val_loop_run loader val_init w0) as (outs & w1 & _ & _ & Hloop & Hbase).
  pose proof (batch_matches_bounds loader outs) as Hm.
  assert (Hshape : val_acc v
                   = (inject_Z (np_sum_int (batch_matches loader outs)) / inject_Z n)%Q
                   /\ res_true v = concat loader.*2).
  { destruct H as [H|H].
    - unfold validate in H. revert H. run. fold w0. rewrite Hloop. simpl.
      case_decide; [done|]. by intros [= <- _].
    - unfold baseline_validate in H. revert H. run. fold w0. rewrite Hbase. simpl.
      case_decide; [done|]. by intros [= <- _]. }
  destruct Hshape as [-> ->]. intros Hn Hlen.
  set (p := np_sum_int (batch_matches loader outs)) in *.
  destruct n as [|q|q]; try lia.
  rewrite <- Qmake_Qdiv. unfold Qle. simpl. lia.
Qed.

End ValidationMore.

Lemma ex_validate_run :
  validate ex_val_loader 4 (ex_w []) = Some (ex_val_result, ex_val_end).
Proof. vm_compute. reflexivity. Defined.

Lemma validate_accuracy_share_witness :
  (0 <= val_acc ex_val_result)%Q /\ (val_acc ex_val_result <= 1)%Q.
Proof.
  apply (validate_accuracy_share ex_val_loader 4 (ex_w []) ex_val_end ex_val_result
           (or_introl ex_validate_run)); simpl; lia.
Defined.

(** ** The whole run *)

Lemma checkpoint_run_last_written (ms : list (Q * Q)) (st : best_state)
    (r : best_state * list artifact) :
  r ∈ checkpoint_run st ms -> LastPth ∈ r.2.
Proof.
  revert st. induction ms as [|[f v] rest IH]; intros st Hin.
  - by apply elem_of_nil in Hin.
  - simpl in Hin. apply elem_of_cons in Hin as [->|Hin]; [|by eapply IH].
    unfold checkpoint. destruct (Qlt_bool (best_f1_score st) f); simpl; repeat constructor.
Qed.

Section RunCompletes.
Context `{F : Framework} `{!FrameworkLaws F}.

Lemma train_epoch_is_Some (a : args) (opt : optimizer_obj)
    (tl : list (list (list (list (list Q))) * list Z)) (w : world) :
  loader_ok tl -> is_Some (train_epoch a opt tl w) <-> tl <> [].
Proof.
  intros Hok. unfold train_epoch. run. rewrite train_batches_fold.
  match goal with |- context [train_steps a opt tl ?w0] =>
    destruct (train_steps_total a opt tl w0 Hok) as [[losses w1] ->]
  end.
  simpl. case_decide as He.
  - split; [intros [? [=]]|done].
  - split; [done|]. intros _. by eexists.
Qed.

Lemma validate_is_Some (vl : list (list (list (list (list Q))) * list Z)) (n : Z) (w : world) :
  is_Some (validate vl n w) <-> vl <> [].
Proof.
  set (w0 := World (rng_state w) (torch_step ModelEval (net_state w)) (inputs w)
               (trace w ++ [ModelEval])).
  destruct (val_loop_run vl val_init w0) as (outs & w1 & _ & _ & Hloop & _).
  unfold validate. run. fold w0. rewrite Hloop. simpl. case_decide as He.
  - split; [intros [? [=]]|done].
  - split; [done|]. intros _. by eexists.
Qed.

Lemma epoch_is_Some (a : args) (opt : optimizer_obj)
    (tl vl : list (list (list (list (list Q))) * list Z)) (n : Z) (st : best_state)
    (w : world) :
  loader_ok tl ->
  is_Some (epoch a opt tl vl n st w) <-> tl <> [] /\ vl <> [].
Proof.
  intros Hok. unfold epoch, mbind, M_bind.
  pose proof (train_epoch_is_Some a opt tl w Hok) as Ht.
  destruct (train_epoch a opt tl w) as [[m w1]|].
  - destruct (call SchedulerStep w1) as [[[] w2]|] eqn:Ec; [|done].
    pose proof (validate_is_Some vl n w2) as Hv.
    destruct (validate vl n w2) as [[v w3]|].
    + split; [|by intros _; eexists]. intros _. split; [by apply Ht|by apply Hv].
    + split; [intros [? [=]]|]. intros [_ Hne]. by apply Hv in Hne as [? [=]].
  - split; [intros [? [=]]|]. intros [Hne _]. by apply Ht in Hne as [? [=]].
Qed.

(** X23.  On well-formed batches a run completes exactly when no epoch has an
    empty training or validation loader; it then has one history entry per
    epoch and "last" is written at each of them.  One empty loader, at any
    epoch, loses the whole run. *)
Theorem train_completes_iff (a : args)
    (loaders : list (list (list (list (list (list Q))) * list Z)
                     * list (list (list (list (list Q))) * list Z)))
    (n : Z) (w : world) :
  Forall (fun ld => loader_ok ld.1) loaders ->
  (is_Some (train a loaders n w)
     <-> Forall (fun ld => ld.1 <> [] /\ ld.2 <> []) loaders) /\
  forall h w', train a loaders n w = Some (h, w') ->
    length h = length loaders /\ forall r, r ∈ h -> LastPth ∈ r.2.
Proof.
  intros Hok. split.
  - unfold train. generalize best_init as st. revert w.
    induction Hok as [|[tl vl] rest Htl _ IH]; intros w st.
    + simpl. split; [by constructor|]. intros _. by eexists.
    + simpl in Htl.
      change (train_epochs a (make_optimizer a) ((tl, vl) :: rest) n st w)
        with ((epoch a (make_optimizer a) tl vl n st ≫= fun r =>
               train_epochs a (make_optimizer a) rest n r.1 ≫= fun h =>
               mret (r :: h)) w).
      unfold mbind, M_bind at 1.
      pose proof (epoch_is_Some a (make_optimizer a) tl vl n st w Htl) as He.
      destruct (epoch a (make_optimizer a) tl vl n st w) as [[r w1]|].
      * unfold mbind, M_bind. specialize (IH w1 r.1).
        destruct (train_epochs a (make_optimizer a) rest n r.1 w1) as [[h w2]|].
        -- split; [|by intros _; eexists]. intros _. constructor.
           ++ apply He. by eexists.
           ++ apply IH. by eexists.
        -- split; [intros [? [=]]|]. intros Hall. apply Forall_cons in Hall as [_ Hall].
           by apply IH in Hall as [? [=]].
      * split; [intros [? [=]]|]. intros Hall. apply Forall_cons in Hall as [Hhd _].
        by apply He in Hhd as [? [=]].
  - intros h w' Hrun. unfold train in Hrun.
    apply train_epochs_checkpoint_run in Hrun as (ms & Hlen & ->).
    split.
    + rewrite <- Hlen. clear. generalize best_init as st.
      induction ms as [|[f v] rest IH]; intros st; simpl; [done|]. by rewrite IH.
    + intros r. apply checkpoint_run_last_written.
Qed.

End RunCompletes.

Lemma ex_loader_ok : loader_ok [(ex_x, ex_labels)].
Proof.
  constructor; [|constructor]. exists 1%nat, 2%nat, 4%nat. apply (ex_batch_ok []).
Defined.

Lemma train_completes_iff_witness :
  (is_Some (train ex_args [([(ex_x, ex_labels)], ex_val_loader)] 4 (ex_w ex_tape))
     <-> Forall (fun ld : list (list (list (list (list Q))) * list Z)
                          * list (list (list (list (list Q))) * list Z) =>
                   ld.1 <> [] /\ ld.2 <> [])
           [([(ex_x, ex_labels)], ex_val_loader)]).
Proof.
  apply (train_completes_iff ex_args [([(ex_x, ex_labels)], ex_val_loader)] 4 (ex_w ex_tape)).
  constructor; [exact ex_loader_ok|constructor].
Defined.

(** ** The end of an epoch *)

Section EpochEnd.
Context `{F : Framework}.

(** X24.  An epoch hands the checkpoint policy the F1 and the loss of its own
    validation pass, run after the training pass and the scheduler step:
    "best" is written exactly when that pass's F1 is strictly above the
    running best. *)
Theorem epoch_checkpoints_validation (a : args) (opt : optimizer_obj)
    (train_loader val_loader : list (list (list (list (list Q))) * list Z))
    (n : Z) (st : best_state) (w w' : world) (r : best_state * list artifact) :
  epoch a opt train_loader val_loader n st w = Some (r, w') ->
  exists train_loss w1 v,
    train_epoch a opt train_loader w = Some (train_loss, w1) /\
    validate val_loader n (after_call SchedulerStep w1) = Some (v, w') /\
    r = checkpoint st (val_f1 v) (val_loss v) /\
    (BestPth ∈ r.2 <-> (best_f1_score st < val_f1 v)%Q) /\
    best_val_loss r.1 = py_min (best_val_loss st) (val_loss v).
Proof.
  unfold epoch, mbind, M_bind, mret, M_ret.
  destruct (train_epoch a opt train_loader w) as [[tl w1]|] eqn:Et; [|done].
  change (call SchedulerStep w1) with (Some (tt, after_call SchedulerStep w1)).
  cbv beta iota.
  destruct (validate val_loader n (after_call SchedulerStep w1))
    as [[v w3]|] eqn:Ev; [|done].
  intros [= <- <-]. exists tl, w1, v. do 3 (split; [done|]).
  split; [|apply checkpoint_best_val_loss].
  unfold checkpoint. destruct (Qlt_bool (best_f1_score st) (val_f1 v)) eqn:E; simpl.
  - apply Qlt_bool_true in E. split; [done|]. intros _. repeat constructor.
  - split; [intros Hin; by apply list_elem_of_singleton in Hin|].
    intros Hlt. apply Qlt_bool_true in Hlt. congruence.
Qed.

(** X25.  The baseline's first epoch ends in an error when its validation F1
    is 0: the running best F1 is then still the integer 0, which the summary
    line of lines 195-198 cannot format with [:4.2].  With a positive F1 the
    epoch returns what the checkpoint policy gives for the scores of its own
    validation pass. *)
Theorem baseline_summary_print_raises
    (train_loader val_loader : list (list (list (list (list Q))) * list Z))
    (n : Z) (w w1 w3 : world) (v : val_result) :
  baseline_train_batches train_loader (after_call ModelTrain w) = Some (tt, w1) ->
  baseline_validate val_loader n (after_call SchedulerStep w1) = Some (v, w3) ->
  (baseline_epoch train_loader val_loader n baseline_best_init w = None
     <-> (val_f1 v <= 0)%Q) /\
  ((0 < val_f1 v)%Q ->
   baseline_epoch train_loader val_loader n baseline_best_init w
     = Some (baseline_checkpoint baseline_best_init
               (val_f1 v) (val_loss v) (val_acc v), w3)).
Proof.
  intros Htrain Hval.
  assert (Hrun : baseline_epoch train_loader val_loader n baseline_best_init w
            = if Qlt_bool 0 (val_f1 v)
              then Some (baseline_checkpoint baseline_best_init
                           (val_f1 v) (val_loss v) (val_acc v), w3)
              else None).
  { unfold baseline_epoch, mbind, M_bind, mret, M_ret.
    change (call ModelTrain w) with (Some (tt, after_call ModelTrain w)).
    cbv beta iota. rewrite Htrain.
    change (call SchedulerStep w1) with (Some (tt, after_call SchedulerStep w1)).
    cbv beta iota. rewrite Hval.
    unfold print_val_summary, baseline_checkpoint. simpl.
    destruct (Qlt_bool 0 (val_f1 v)) eqn:E; simpl; [|done].
    apply Qlt_bool_true in E.
    destruct (Qeq_bool (val_f1 v) 0) eqn:E0; [|done].
    apply Qeq_bool_iff in E0. rewrite E0 in E. by apply Qlt_irrefl in E. }
  rewrite Hrun. split.
  - destruct (Qlt_bool 0 (val_f1 v)) eqn:E.
    + apply Qlt_bool_true in E. split; [done|].
      intros Hle. exfalso. exact (Qlt_not_le _ _ E Hle).
    + apply Qlt_bool_false in E. done.
  - intros Hpos. apply Qlt_bool_true in Hpos. by rewrite Hpos.
Qed.

End EpochEnd.

Lemma epoch_checkpoints_validation_witness :
  exists r w' v w1,
    epoch ex_args (make_optimizer ex_args) [(ex_x, ex_labels)] ex_val_loader 4
      best_init (ex_w ex_tape) = Some (r, w') /\
    validate ex_val_loader 4 (after_call SchedulerStep w1) = Some (v, w') /\
    r = checkpoint best_init (val_f1 v) (val_loss v).
Proof.
  destruct (epoch ex_args (make_optimizer ex_args) [(ex_x, ex_labels)] ex_val_loader 4
              best_init (ex_w ex_tape)) as [[r w']|] eqn:E;
    [|vm_compute in E; discriminate].
  destruct (epoch_checkpoints_validation _ _ _ _ _ _ _ _ _ E)
    as (tl & w1 & v & _ & Hv & Hr & _).
  exists r, w', v, w1. auto.
Defined.

Lemma baseline_summary_print_raises_witness :
  baseline_train_batches [] (after_call ModelTrain (ex_w [])) 
    = Some (tt, after_call ModelTrain (ex_w [])) /\
  baseline_validate ex_zero_loader 1
    (after_call SchedulerStep (after_call ModelTrain (ex_w [])))
    = Some (ex_zero_val, ex_zero_end) /\
  baseline_epoch [] ex_zero_loader 1 baseline_best_init (ex_w []) = None.
Proof.
  assert (Ht : baseline_train_batches [] (after_call ModelTrain (ex_w []))
               = Some (tt, after_call ModelTrain (ex_w []))) by reflexivity.
  assert (Ev : baseline_validate ex_zero_loader 1
                 (after_call SchedulerStep (after_call ModelTrain (ex_w [])))
               = Some (ex_zero_val, ex_zero_end)) by (vm_compute; reflexivity).
  split; [exact Ht|]. split; [exact Ev|].
  destruct (baseline_summary_print_raises [] ex_zero_loader 1 (ex_w []) _ _ _
              Ht Ev) as [Hnone _].
  apply Hnone. unfold ex_zero_val, val_f1, Qle. simpl. lia.
Defined.
